(** * Travel journal backend: the post model and its six route handlers

    A shallow embedding of [src/models/Post.ts] (the Mongoose schema with its
    [pre('save')] hook) and of the Express server that follows it in the same
    file (the handlers for [/api/posts], [/api/posts/:id] and [/api/tags]).

    The handlers are asynchronous functions that talk to three things outside
    the process: the document store, the media host and the clock.  Here a
    [World] holds what those three remember, a handler is a function from a
    [World] to a response and a new [World], and whatever the outside decides
    during one request (how far the clock has moved at each reading, whether
    the media host accepts the upload) comes in as an [Env].

    Conventions of the model:
    - text is a [string] of 8-bit characters; white space and letter case
      are those of ASCII, and statements that depend on them ask for ASCII;
    - the fields [title], [content], [location] and [imageUrl] of a request
      body are texts, each given at most once, or missing; [tags] is missing,
      one text or an array of texts; a body with other values (a repeated
      field, [null], a number, an object) is not represented, and a field
      that JavaScript would hold as [undefined] is [None];
    - a route parameter is a text, cast to an identifier when a document is
      looked up by it;
    - a pattern made of ordinary characters and the wildcard [.] is matched
      by the model; any other pattern is left to an engine that is a
      parameter of the listing;
    - the clock never runs backwards: each reading advances it by a natural
      number of milliseconds;
    - a request is handled from start to end before the next one starts;
    - the store itself does not fail; the media host may. *)

From Stdlib Require Import ZArith String Ascii.
From stdpp Require Import gmap strings list sorting.

Local Open Scope Z_scope.

(** ** JavaScript helpers *)

(** Truthiness of a text value that may be missing: [undefined] and the
    empty string are falsy. *)
Definition truthy (v : option string) : bool :=
  match v with
  | Some (String _ _) => true
  | _ => false
  end.

(** [a || b] *)
Definition js_or (a b : option string) : option string :=
  if truthy a then a else b.

(** A form field that may be repeated: multer yields nothing, one text or an
    array of texts. *)
Inductive FormValue :=
  | Absent
  | Scalar (s : string)
  | Many (l : list string).

Definition truthy_form (v : FormValue) : bool :=
  match v with
  | Absent => false
  | Scalar s => truthy (Some s)
  | Many _ => true
  end.

(** White space removed by [String.prototype.trim], within ASCII. *)
Definition is_white (c : ascii) : bool :=
  let n := N_of_ascii c in
  ((9 <=? n) && (n <=? 13) || (n =? 32))%N.

Fixpoint trimStart (s : list ascii) : list ascii :=
  match s with
  | c :: s' => if is_white c then trimStart s' else s
  | [] => []
  end.

Definition trimEnd (s : list ascii) : list ascii :=
  reverse (trimStart (reverse s)).

Definition trim (s : string) : string :=
  string_of_list_ascii (trimEnd (trimStart (list_ascii_of_string s))).

(** ** Regular expressions, as far as the search needs them

    [new RegExp(source, 'i')] is modelled on the sources made of ordinary
    characters and the wildcard [.]; a source that uses any other pattern
    syntax is outside this fragment ([None] below) and goes to the engine of
    [compile]. *)

Inductive Atom :=
  | Lit (c : ascii)
  | Dot.

Definition RegExp := list Atom.

Definition metachars : list ascii :=
  list_ascii_of_string "\^$.*+?()[]{}|".

Definition is_meta (c : ascii) : bool := bool_decide (c ∈ metachars).

Definition parse_atom (c : ascii) : option Atom :=
  if bool_decide (c = "."%char) then Some Dot
  else if is_meta c then None
  else Some (Lit c).

Definition new_RegExp (source : string) : option RegExp :=
  mapM parse_atom (list_ascii_of_string source).

(** Canonicalisation under the [i] flag. *)
Definition toUpper (c : ascii) : ascii :=
  let n := N_of_ascii c in
  if ((97 <=? n) && (n <=? 122))%N then ascii_of_N (n - 32) else c.

Definition is_line_terminator (c : ascii) : bool :=
  let n := N_of_ascii c in ((n =? 10) || (n =? 13))%N.

Definition atom_matches (a : Atom) (c : ascii) : bool :=
  match a with
  | Lit x => bool_decide (toUpper x = toUpper c)
  | Dot => negb (is_line_terminator c)
  end.

Fixpoint match_here (r : RegExp) (s : list ascii) : bool :=
  match r, s with
  | [], _ => true
  | a :: r', c :: s' => atom_matches a c && match_here r' s'
  | _ :: _, [] => false
  end.

(** An unanchored pattern matches when it matches at some position. *)
Fixpoint search_from (r : RegExp) (s : list ascii) : bool :=
  match_here r s ||
  match s with
  | [] => false
  | _ :: s' => search_from r s'
  end.

Definition RegExp_test (r : RegExp) (s : string) : bool :=
  search_from r (list_ascii_of_string s).

(** What the constructor makes of a source: a pattern, of which the search
    uses the test on a text, or a [SyntaxError]. *)
Inductive Compiled :=
  | Compiles (test : string → bool)
  | SyntaxError (message : string).

(** The sources outside the fragment are left to an engine of which nothing
    is assumed: it may accept a source, with any test, or reject it. *)
Definition Engine : Type := string → Compiled.

Definition compile (beyond : Engine) (source : string) : Compiled :=
  match new_RegExp source with
  | Some r => Compiles (RegExp_test r)
  | None => beyond source
  end.

(** ** The Post document (interface [IPost] and [PostSchema]) *)

Definition ObjectId := positive.

Record Post := mkPost {
  title : option string;
  content : option string;
  imageUrl : option string;
  location : option string;
  tags : option (list string);
  createdAt : Z;
  updatedAt : Z
}.

Definition Doc : Type := ObjectId * Post.

(** ** Requests and responses *)

Record File := mkFile {
  mimetype : string;
  buffer : string
}.

Record Body := mkBody {
  b_title : option string;
  b_content : option string;
  b_location : option string;
  b_imageUrl : option string;
  b_tags : FormValue
}.

Record Request := mkRequest {
  body : Body;
  file : option File
}.

Inductive Json :=
  | JMessage (message : string)
  | JNull
  | JPost (d : Doc)
  | JPosts (l : list Doc)
  | JTags (l : list string).

Record Response := mkResponse {
  status : N;
  json : Json
}.

(** ** The world outside the process *)

Record World := mkWorld {
  posts : gmap ObjectId Post;   (* the collection *)
  nextId : ObjectId;            (* the next identifier the store hands out *)
  now : Z;                      (* the last reading of the clock, in ms *)
  uploads : list File           (* every upload the media host was sent *)
}.

Inductive UploadOutcome :=
  | Uploaded (secure_url : string)
  | UploadError (message : string).

(** What the outside decides while one request is handled. *)
Record Env := mkEnv {
  tick_createdAt : N;   (* before the default of [createdAt] is read *)
  tick_updatedAt : N;   (* before the default of [updatedAt] is read *)
  tick_presave : N;     (* before [pre('save')] reads the clock *)
  tick_update : N;      (* before the update handler reads the clock *)
  upload_outcome : UploadOutcome
}.

(** ** Computations that read and change the world and may throw *)

Inductive Result (A : Type) :=
  | Ok (a : A)
  | Throw (message : string).
Arguments Ok {A} a.
Arguments Throw {A} message.

Definition M (A : Type) : Type := World → Result A * World.

Global Instance M_ret : MRet M := λ A a w, (Ok a, w).

Global Instance M_bind : MBind M := λ A B f m w,
  match m w with
  | (Ok a, w') => f a w'
  | (Throw e, w') => (Throw e, w')
  end.

Definition throw {A} (message : string) : M A := λ w, (Throw message, w).

(** [try { ... } catch (error) { ... error.message ... }] around a handler
    body that ends by sending a response. *)
Definition try_catch (m : M Response) (handler : string → Response)
    : World → Response * World := λ w,
  match m w with
  | (Ok r, w') => (r, w')
  | (Throw e, w') => (handler e, w')
  end.

Definition respond (r : Response) : World → Response * World := λ w, (r, w).

(** [Date.now()] and [new Date()]: the clock has moved on by [tick]. *)
Definition Date_now (tick : N) : M Z := λ w,
  let t := now w + Z.of_N tick in
  (Ok t, mkWorld (posts w) (nextId w) t (uploads w)).

(** [cloudinary.uploader.upload]: the host is sent the file and answers with
    [secure_url] or fails. *)
Definition cloudinary_upload (env : Env) (f : File) : M string := λ w,
  let w' := mkWorld (posts w) (nextId w) (now w) (uploads w ++ [f]) in
  match upload_outcome env with
  | Uploaded url => (Ok url, w')
  | UploadError e => (Throw e, w')
  end.

(** ** The model [Post] *)

(** The identifier of a new document: never handed out before. *)
Definition new_ObjectId : M ObjectId := λ w,
  (Ok (nextId w),
   mkWorld (posts w) (Pos.succ (nextId w)) (now w) (uploads w)).

(** The write that ends [save]. *)
Definition store_doc (d : Doc) : M unit := λ w,
  (Ok tt, mkWorld (<[d.1 := d.2]> (posts w)) (nextId w) (now w) (uploads w)).

(** [new Post({ title, content, imageUrl, location, tags })]: the store's
    identifier and the two defaults [Date.now]. *)
Definition new_Post (env : Env) (ti co im lo : option string)
    (tg : list string) : M Doc :=
  id ← new_ObjectId;
  c ← Date_now (tick_createdAt env);
  u ← Date_now (tick_updatedAt env);
  mret (id, mkPost ti co im lo (Some tg) c u).

(** [required: true] on [title] and [content]. *)
Definition validate (p : Post) : M unit :=
  if truthy (title p) then
    if truthy (content p) then mret tt
    else throw "Post validation failed: content: Path `content` is required."
  else throw "Post validation failed: title: Path `title` is required.".

(** [PostSchema.pre('save', ...)]: [this.updatedAt = new Date()]. *)
Definition pre_save (env : Env) (p : Post) : M Post :=
  t ← Date_now (tick_presave env);
  mret (mkPost (title p) (content p) (imageUrl p) (location p) (tags p)
               (createdAt p) t).

(** [doc.save()] *)
Definition save (env : Env) (d : Doc) : M Doc :=
  _ ← validate d.2;
  p ← pre_save env d.2;
  _ ← store_doc (d.1, p);
  mret (d.1, p).

(** [Post.findById(id)] *)
Definition findById (id : ObjectId) : M (option Post) := λ w,
  (Ok (posts w !! id), w).

(** [Post.findByIdAndDelete(id)] *)
Definition findByIdAndDelete (id : ObjectId) : M (option Post) := λ w,
  (Ok (posts w !! id),
   mkWorld (delete id (posts w)) (nextId w) (now w) (uploads w)).

(** The update document of the update handler. *)
Record Update := mkUpdate {
  u_title : option string;
  u_content : option string;
  u_imageUrl : option string;
  u_location : option string;
  u_tags : option (list string);
  u_updatedAt : Z
}.

(** ** Listing: the filter and the order *)

(** [{ field: { $regex: r } }] on a text field that may be missing. *)
Definition field_matches (test : string → bool) (v : option string) : bool :=
  match v with
  | Some s => test s
  | None => false
  end.

(** On an array field the pattern has to match some element. *)
Definition array_matches (test : string → bool) (v : option (list string))
    : bool :=
  match v with
  | Some l => existsb test l
  | None => false
  end.

(** [query]: [{}] or [{ $or: [title, content, location, tags] }]. *)
Definition query_matches (q : option (string → bool)) (p : Post) : bool :=
  match q with
  | None => true
  | Some test =>
      field_matches test (title p) || field_matches test (content p) ||
      field_matches test (location p) || array_matches test (tags p)
  end.

(** [createdAt: -1] *)
Definition newest_first (d1 d2 : Doc) : Prop :=
  createdAt d2.2 ≤ createdAt d1.2.

Global Instance newest_first_dec : RelDecision newest_first.
Proof. intros d1 d2. unfold newest_first. apply _. Defined.

(** [Post.find(query).sort({ createdAt: -1 })] *)
Definition find_sorted (q : option (string → bool)) (w : World) : list Doc :=
  merge_sort newest_first
    (filter (λ d, query_matches q d.2 = true) (map_to_list (posts w))).

Definition find (q : option (string → bool)) : M (list Doc) := λ w,
  (Ok (find_sorted q w), w).

(** [new RegExp(searchTerm, 'i')], which throws on a source it rejects. *)
Definition construct_RegExp (beyond : Engine) (source : string)
    : M (string → bool) :=
  match compile beyond source with
  | Compiles test => mret test
  | SyntaxError message => throw message
  end.

(** ** Tags: the aggregation pipeline *)

(** [$unwind: '$tags'] *)
Definition unwind_tags (docs : list Doc) : list string :=
  docs ≫= (λ d, default [] (tags d.2)).

(** [$unwind], [$group] by the tag, [$project], [$sort] ascending. *)
Definition aggregate_tags (w : World) : list string :=
  merge_sort String.le (remove_dups (unwind_tags (map_to_list (posts w)))).

(** ** Route parameters

    [req.params.id] is a text.  The model casts it to [ObjectId] when a
    document is looked up by it: twenty-four hexadecimal digits name an
    identifier, any other text makes the lookup throw a [CastError]. *)

Definition hex_digit (c : ascii) : option N :=
  let n := N_of_ascii c in
  if ((48 <=? n) && (n <=? 57))%N then Some (n - 48)%N
  else if ((97 <=? n) && (n <=? 102))%N then Some (n - 87)%N
  else if ((65 <=? n) && (n <=? 70))%N then Some (n - 55)%N
  else None.

Fixpoint hex_value (acc : N) (s : list ascii) : option N :=
  match s with
  | [] => Some acc
  | c :: s' => d ← hex_digit c; hex_value (16 * acc + d)%N s'
  end.

Definition castObjectId (param : string) : option ObjectId :=
  if (String.length param =? 24)%nat
  then N.succ_pos <$> hex_value 0 (list_ascii_of_string param)
  else None.

Definition quote : string := String (ascii_of_N 34) EmptyString.

Definition CastError (param : string) : string :=
  "Cast to ObjectId failed for value " +:+ quote +:+ param +:+ quote +:+
  " (type string) at path " +:+ quote +:+ "_id" +:+ quote +:+
  " for model " +:+ quote +:+ "Post" +:+ quote.

(** ** The route handlers *)

Section Handlers.

(** How the store treats a key of an update document whose value is
    [undefined].  The handlers do not choose this: Mongoose up to version 5
    has the update option [omitUndefined], off by default, and writes such a
    key; from version 6 on the option is gone and such a key is always
    dropped from the update. *)
Variable omitUndefined : bool.

(** One field under [$set]: [new] is [None] when the key is [undefined] in
    the update document (a [null] there is not represented). *)
Definition set_field {A} (old new : option A) : option A :=
  match new with
  | Some v => Some v
  | None => if omitUndefined then old else None
  end.

Definition apply_update (u : Update) (p : Post) : Post :=
  mkPost (set_field (title p) (u_title u))
         (set_field (content p) (u_content u))
         (set_field (imageUrl p) (u_imageUrl u))
         (set_field (location p) (u_location u))
         (set_field (tags p) (u_tags u))
         (createdAt p)
         (u_updatedAt u).

(** [Post.findByIdAndUpdate(id, update, { new: true })]: the document after
    the update, or [null] when there is none. *)
Definition findByIdAndUpdate (id : ObjectId) (u : Update) : M (option Post) :=
  λ w,
  match posts w !! id with
  | Some p =>
      let p' := apply_update u p in
      (Ok (Some p'),
       mkWorld (<[id := p']> (posts w)) (nextId w) (now w) (uploads w))
  | None => (Ok None, w)
  end.

(** The schema casts a value given for the array path [tags]. *)
Definition cast_tags (v : FormValue) : option (list string) :=
  match v with
  | Absent => None
  | Scalar s => Some [s]
  | Many l => Some l
  end.

(** [tags ? (Array.isArray(tags) ? tags : [tags]) : []] *)
Definition normalize_tags (v : FormValue) : list string :=
  if truthy_form v then
    match v with
    | Many l => l
    | Scalar s => [s]
    | Absent => []
    end
  else [].

(** The upload of the attached file, shared by create and update. *)
Definition upload_file (env : Env) (f : File) : M (option string) :=
  url ← cloudinary_upload env f;
  mret (Some url).

(** 1. [GET /api/posts] *)
Definition getPosts (beyond : Engine) (search : option string)
    : World → Response * World :=
  try_catch
    (query ← (if truthy search
              then searchRegex ← construct_RegExp beyond
                                   (trim (default ""%string search));
                   mret (Some searchRegex)
              else mret None);
     posts ← find query;
     mret (mkResponse 200 (JPosts posts)))
    (λ message, mkResponse 500 (JMessage message)).

(** 2. [GET /api/posts/:id] *)
Definition getPost (id : ObjectId) : World → Response * World :=
  try_catch
    (post ← findById id;
     match post with
     | None => mret (mkResponse 404 (JMessage "Post not found"))
     | Some p => mret (mkResponse 200 (JPost (id, p)))
     end)
    (λ message, mkResponse 500 (JMessage message)).

(** 3. [POST /api/posts] *)
Definition createPost (env : Env) (req : Request) : World → Response * World :=
  let b := body req in
  if negb (truthy (b_title b)) || negb (truthy (b_content b)) then
    respond (mkResponse 400 (JMessage "Title and content are required"))
  else
    try_catch
      (imageUrl ← match file req with
                  | Some f => upload_file env f
                  | None => mret None
                  end;
       newPost ← new_Post env (b_title b) (b_content b) imageUrl
                   (b_location b) (normalize_tags (b_tags b));
       savedPost ← save env newPost;
       mret (mkResponse 201 (JPost savedPost)))
      (λ message,
         mkResponse 400 (JMessage ("Failed to create post: " +:+ message))).

(** 4. [PUT /api/posts/:id] *)
Definition updatePost (env : Env) (id : ObjectId) (req : Request)
    : World → Response * World :=
  let b := body req in
  try_catch
    (existingPost ← findById id;
     match existingPost with
     | None => mret (mkResponse 404 (JMessage "Post not found"))
     | Some existing =>
         imageUrl ← match file req with
                    | Some f => upload_file env f
                    | None => mret (js_or (b_imageUrl b) (imageUrl existing))
                    end;
         t ← Date_now (tick_update env);
         updatedPost ← findByIdAndUpdate id
                         (mkUpdate (b_title b) (b_content b) imageUrl
                                   (b_location b) (cast_tags (b_tags b)) t);
         mret (mkResponse 200
                 (match updatedPost with
                  | Some p => JPost (id, p)
                  | None => JNull
                  end))
     end)
    (λ message,
       mkResponse 400 (JMessage ("Failed to update post: " +:+ message))).

(** 5. [DELETE /api/posts/:id] *)
Definition deletePost (id : ObjectId) : World → Response * World :=
  try_catch
    (deletedPost ← findByIdAndDelete id;
     match deletedPost with
     | None => mret (mkResponse 404 (JMessage "Post not found"))
     | Some _ => mret (mkResponse 200 (JMessage "Post deleted successfully"))
     end)
    (λ message, mkResponse 500 (JMessage message)).

(** 6. [GET /api/tags] *)
Definition getTags : World → Response * World :=
  try_catch
    (λ w, (Ok (mkResponse 200 (JTags (aggregate_tags w))), w))
    (λ message, mkResponse 500 (JMessage message)).

(** ** The handlers on the route parameter

    The three handlers above take the identifier that the route parameter
    names.  On a parameter that names none, the lookup that opens each of
    them ([findById], [findByIdAndDelete]) throws before anything else is
    done, and the handler's [catch] answers. *)

Definition route_get (param : string) : World → Response * World :=
  match castObjectId param with
  | Some id => getPost id
  | None =>
      try_catch (throw (CastError param))
        (λ message, mkResponse 500 (JMessage message))
  end.

Definition route_put (env : Env) (param : string) (req : Request)
    : World → Response * World :=
  match castObjectId param with
  | Some id => updatePost env id req
  | None =>
      try_catch (throw (CastError param))
        (λ message,
           mkResponse 400 (JMessage ("Failed to update post: " +:+ message)))
  end.

Definition route_delete (param : string) : World → Response * World :=
  match castObjectId param with
  | Some id => deletePost id
  | None =>
      try_catch (throw (CastError param))
        (λ message, mkResponse 500 (JMessage message))
  end.

(** ** The server as a transition system

    The calls are those that reach the collection: a request whose route
    parameter names no identifier is answered from the [catch] and changes
    nothing, and is not a step. *)

Inductive Call :=
  | GET_posts (beyond : Engine) (search : option string)
  | GET_post (id : ObjectId)
  | POST_posts (env : Env) (req : Request)
  | PUT_post (env : Env) (id : ObjectId) (req : Request)
  | DELETE_post (id : ObjectId)
  | GET_tags.

Definition handle (c : Call) (w : World) : Response * World :=
  match c with
  | GET_posts beyond search => getPosts beyond search w
  | GET_post id => getPost id w
  | POST_posts env req => createPost env req w
  | PUT_post env id req => updatePost env id req w
  | DELETE_post id => deletePost id w
  | GET_tags => getTags w
  end.

(** The server starts on an empty collection, at any time. *)
Definition start (t : Z) : World := mkWorld ∅ 1%positive t [].

Inductive reachable : World → Prop :=
  | reach_start t : reachable (start t)
  | reach_step w c r w' :
      reachable w → handle c w = (r, w') → reachable w'.

End Handlers.

(** ** The vocabulary of the specification *)

(** A required field is blank when it is missing or empty. *)
Definition blank (v : option string) : Prop :=
  v = None ∨ v = Some ""%string.

Definition fold_case (s : string) : list ascii :=
  toUpper <$> list_ascii_of_string s.

(** [term] appears in [s] as a substring, letter case apart. *)
Definition occurs_in (term s : string) : Prop :=
  ∃ pre suf, fold_case s = pre ++ fold_case term ++ suf.

Definition occurs_in_field (term : string) (v : option string) : Prop :=
  ∃ s, v = Some s ∧ occurs_in term s.

(** [term] appears in the title, the content, the location or a tag. *)
Definition mentions (term : string) (p : Post) : Prop :=
  occurs_in_field term (title p) ∨
  occurs_in_field term (content p) ∨
  occurs_in_field term (location p) ∨
  ∃ ts t, tags p = Some ts ∧ t ∈ ts ∧ occurs_in term t.


(** A term none of whose characters means something in a pattern. *)
Definition plain (term : string) : Prop :=
  Forall (λ c, is_meta c = false) (list_ascii_of_string term).

(** ** Invariants of the worlds the server can reach *)

Definition timestamps_ok (w : World) : Prop :=
  ∀ id p, posts w !! id = Some p →
          createdAt p ≤ updatedAt p ∧ updatedAt p ≤ now w.

Definition ids_fresh (w : World) : Prop :=
  ∀ id p, posts w !! id = Some p → (id < nextId w)%positive.

(** What one call can do to the collection, the identifiers and the clock. *)
Inductive Effect (w : World) (c : Call) (r : Response) (w' : World) : Prop :=
  | eff_none :
      posts w' = posts w → nextId w' = nextId w → now w' = now w →
      (∀ env req d, c = POST_posts env req → json r ≠ JPost d) →
      (∀ env id req, c = PUT_post env id req → status r ≠ 200%N) →
      Effect w c r w'
  | eff_created env req p :
      c = POST_posts env req →
      r = mkResponse 201 (JPost (nextId w, p)) →
      posts w' = <[nextId w := p]> (posts w) →
      nextId w' = Pos.succ (nextId w) →
      createdAt p = now w + Z.of_N (tick_createdAt env) →
      updatedAt p = createdAt p + Z.of_N (tick_updatedAt env)
                    + Z.of_N (tick_presave env) →
      now w' = updatedAt p →
      Effect w c r w'
  | eff_updated env id req p p' :
      c = PUT_post env id req →
      posts w !! id = Some p →
      posts w' = <[id := p']> (posts w) →
      nextId w' = nextId w →
      createdAt p' = createdAt p →
      updatedAt p' = now w + Z.of_N (tick_update env) →
      now w' = updatedAt p' →
      Effect w c r w'
  | eff_deleted id :
      c = DELETE_post id →
      posts w' = delete id (posts w) → nextId w' = nextId w → now w' = now w →
      Effect w c r w'.

(** ** Sample requests and worlds *)

(** Nothing happens between two readings of the clock; the upload works. *)
Definition quiet : Env :=
  mkEnv 0 0 0 0 (Uploaded "https://media.example/kyoto.jpg").

(** One millisecond passes before the document is saved. *)
Definition slow_save : Env :=
  mkEnv 0 0 1 0 (Uploaded "https://media.example/kyoto.jpg").

Definition host_down : Env :=
  mkEnv 0 0 0 0 (UploadError "connection refused").

Definition photo : File := mkFile "image/jpeg" "bytes".

Definition kyoto_form : Body :=
  mkBody (Some "Kyoto") (Some "temples") None None (Many ["asia"; "temple"]).

Definition kyoto : Post :=
  mkPost (Some "Kyoto") (Some "temples") None None (Some ["asia"; "temple"])
         100 101.

(** The world after [kyoto_form] was posted to a server started at 100. *)
Definition w_kyoto : World :=
  (createPost slow_save (mkRequest kyoto_form None) (start 100)).2.

(** An update that gives the content and nothing else. *)
Definition content_only : Request :=
  mkRequest (mkBody None (Some "shrines") None None Absent) None.



Definition kyoto_request : Request := mkRequest kyoto_form None.

Definition kyoto_with_photo : Request := mkRequest kyoto_form (Some photo).

(** An update that blanks the title. *)
Definition blank_title : Request :=
  mkRequest (mkBody (Some "") (Some "temples") None None Absent) None.

(** A document that the schema does not accept. *)
Definition untitled : Post :=
  mkPost None (Some "temples") None None (Some []) 100 100.

(** The route parameters of the identifiers 1 and 7, and one of none. *)
Definition param_1 : string := "000000000000000000000000".
Definition param_7 : string := "000000000000000000000006".
Definition param_abc : string := "abc".

(** An engine that accepts no source outside the fragment. *)
Definition rejecting : Engine :=
  λ _, SyntaxError "Invalid regular expression".

(** Fifty milliseconds pass before a document is constructed. *)
Definition later : Env :=
  mkEnv 50 0 0 0 (Uploaded "https://media.example/kyoto.jpg").

Definition osaka : Post :=
  mkPost (Some "Osaka") (Some "castle and temples") None None (Some ["asia"])
         151 151.

Definition nara : Post :=
  mkPost (Some "Nara") (Some "deer") None None (Some []) 201 201.

(** [w_kyoto] after two more posts, made at 151 and at 201. *)
Definition w_trip : World :=
  (createPost later
     (mkRequest (mkBody (Some "Nara") (Some "deer") None None Absent) None)
     (createPost later
        (mkRequest (mkBody (Some "Osaka") (Some "castle and temples") None
                           None (Scalar "asia")) None)
        w_kyoto).2).2.

(** * Properties *)

Global Instance newest_first_total : Total newest_first.
Proof. intros d1 d2. unfold newest_first. lia. Qed.

Global Instance newest_first_trans : Transitive newest_first.
Proof. intros d1 d2 d3. unfold newest_first. lia. Qed.

(** Opens the monad: every computation becomes a function on worlds. *)
Ltac unfold_M :=
  unfold try_catch, respond, upload_file, save, pre_save, validate, new_Post,
    store_doc, new_ObjectId, findById, findByIdAndDelete, findByIdAndUpdate,
    cloudinary_upload, Date_now, find, throw, mbind, M_bind, mret, M_ret in *.

Lemma truthy_blank v : truthy v = false ↔ blank v.
Proof.
  unfold blank. destruct v as [[|c s]|]; simpl; split; intros H; try done; auto.
  all: destruct H; discriminate.
Qed.

Example w_kyoto_posts : map_to_list (posts w_kyoto) = [(1%positive, kyoto)].
Proof. reflexivity. Qed.

Example w_kyoto_search :
  getPosts rejecting (Some "  TEMPLE ") w_kyoto
  = (mkResponse 200 (JPosts [(1%positive, kyoto)]), w_kyoto).
Proof. reflexivity. Qed.

Example w_trip_listing :
  getPosts rejecting None w_trip
  = (mkResponse 200
       (JPosts [(3%positive, nara); (2%positive, osaka); (1%positive, kyoto)]),
     w_trip).
Proof. reflexivity. Qed.

Example w_trip_rejected_pattern :
  getPosts rejecting (Some "*") w_trip
  = (mkResponse 500 (JMessage "Invalid regular expression"), w_trip).
Proof. reflexivity. Qed.

Example param_1_cast : castObjectId param_1 = Some 1%positive.
Proof. reflexivity. Qed.

Example param_hex_cast : is_Some (castObjectId "65f0c2a1B3d4e5F6a7b8c9d0").
Proof. by eexists. Qed.

Example param_short_cast : castObjectId "65f0c2a1b3d4" = None.
Proof. reflexivity. Qed.

Example param_abc_cast : castObjectId param_abc = None.
Proof. reflexivity. Qed.

Example w_kyoto_tags : json (getTags w_kyoto).1 = JTags ["asia"; "temple"].
Proof. reflexivity. Qed.

(** ** Create *)

(** C2: a create request whose title or content is blank (missing or empty)
    is answered with 400; no record is persisted and the media host is sent
    nothing. *)
Theorem create_blank_rejected env req w :
  blank (b_title (body req)) ∨ blank (b_content (body req)) →
  status (createPost env req w).1 = 400%N ∧
  posts (createPost env req w).2 = posts w ∧
  uploads (createPost env req w).2 = uploads w.
Proof.
  rewrite <- !truthy_blank. intros H. unfold createPost.
  destruct H as [-> | ->]; simpl; rewrite ?orb_true_r; done.
Qed.

Lemma create_blank_rejected_witness :
  status (createPost quiet (mkRequest (mkBody (Some "") (Some "temples") None
                                         None Absent) (Some photo))
            w_kyoto).1 = 400%N ∧
  posts (createPost quiet (mkRequest (mkBody (Some "") (Some "temples") None
                                        None Absent) (Some photo))
           w_kyoto).2 = posts w_kyoto ∧
  uploads (createPost quiet (mkRequest (mkBody (Some "") (Some "temples") None
                                          None Absent) (Some photo))
             w_kyoto).2 = uploads w_kyoto.
Proof.
  apply (create_blank_rejected quiet
           (mkRequest (mkBody (Some "") (Some "temples") None None Absent)
                      (Some photo)) w_kyoto).
  left. right. reflexivity.
Defined.

(** C4: a create request that carries a file and whose upload fails is
    answered with a failure, and the collection is left as it was. *)
Theorem create_upload_failure env req w f msg :
  file req = Some f →
  upload_outcome env = UploadError msg →
  status (createPost env req w).1 = 400%N ∧
  posts (createPost env req w).2 = posts w.
Proof.
  intros Hf Hu. unfold createPost.
  destruct (negb _ || negb _); [done|].
  rewrite Hf. unfold_M. simpl. rewrite Hu. done.
Qed.

Lemma create_upload_failure_witness :
  status (createPost host_down (mkRequest kyoto_form (Some photo)) w_kyoto).1
    = 400%N ∧
  posts (createPost host_down (mkRequest kyoto_form (Some photo)) w_kyoto).2
    = posts w_kyoto.
Proof.
  apply (create_upload_failure host_down (mkRequest kyoto_form (Some photo))
           w_kyoto photo "connection refused"); reflexivity.
Defined.

(** ** Delete *)

(** C9, as the code has it: for a route parameter that names an identifier,
    deleting is answered with 404 and changes nothing when no record has the
    identifier, and removes the record when one has; for a route parameter
    that names no identifier the lookup throws, the answer is 500 and nothing
    changes. *)
Theorem delete_semantics param w :
  (∀ id, castObjectId param = Some id → posts w !! id = None →
     route_delete param w
     = (mkResponse 404 (JMessage "Post not found"), w)) ∧
  (∀ id p, castObjectId param = Some id → posts w !! id = Some p →
     status (route_delete param w).1 = 200%N ∧
     posts (route_delete param w).2 = delete id (posts w) ∧
     posts (route_delete param w).2 !! id = None) ∧
  (castObjectId param = None →
     ∃ message,
       route_delete param w = (mkResponse 500 (JMessage message), w)).
Proof.
  unfold route_delete. split_and!.
  - intros id -> H. unfold deletePost. unfold_M. rewrite H.
    destruct w; simpl in *. by rewrite delete_id.
  - intros id p -> H. unfold deletePost. unfold_M. rewrite H. simpl.
    split_and!; [done..|apply lookup_delete_eq].
  - intros ->. by eexists.
Qed.

Lemma delete_semantics_witness :
  route_delete param_7 w_kyoto
    = (mkResponse 404 (JMessage "Post not found"), w_kyoto) ∧
  (status (route_delete param_1 w_kyoto).1 = 200%N ∧
   posts (route_delete param_1 w_kyoto).2 = delete 1%positive (posts w_kyoto) ∧
   posts (route_delete param_1 w_kyoto).2 !! 1%positive = None) ∧
  ∃ message,
    route_delete param_abc w_kyoto
    = (mkResponse 500 (JMessage message), w_kyoto).
Proof.
  destruct (delete_semantics param_7 w_kyoto) as (H404 & _ & _).
  destruct (delete_semantics param_1 w_kyoto) as (_ & H200 & _).
  destruct (delete_semantics param_abc w_kyoto) as (_ & _ & H500).
  split; [|split].
  - apply (H404 7%positive); reflexivity.
  - apply (H200 1%positive kyoto); reflexivity.
  - apply H500. reflexivity.
Defined.

(** C9, as stated, fails on a route parameter that names no identifier: it
    matches no record, and the answer is 500, not 404. *)
Lemma delete_malformed_is_not_404 :
  castObjectId param_abc = None ∧
  route_delete param_abc w_kyoto
    = (mkResponse 500 (JMessage (CastError param_abc)), w_kyoto) ∧
  status (route_delete param_abc w_kyoto).1 ≠ 404%N.
Proof. split_and!; [reflexivity..|discriminate]. Qed.

(** ** Update *)

(** What an update that goes through answers and leaves in the world. *)
Lemma updatePost_found omit env id req w p :
  posts w !! id = Some p →
  (file req = None ∨ ∃ url, upload_outcome env = Uploaded url) →
  let im := match file req, upload_outcome env with
            | Some _, Uploaded url => Some url
            | _, _ => js_or (b_imageUrl (body req)) (imageUrl p)
            end in
  let t := now w + Z.of_N (tick_update env) in
  let p' := apply_update omit
              (mkUpdate (b_title (body req)) (b_content (body req)) im
                 (b_location (body req)) (cast_tags (b_tags (body req))) t) p in
  updatePost omit env id req w =
    (mkResponse 200 (JPost (id, p')),
     mkWorld (<[id := p']> (posts w)) (nextId w) t
       (uploads w ++ match file req with Some f => [f] | None => [] end)).
Proof.
  intros Hp Hup. unfold updatePost. unfold_M. rewrite Hp.
  destruct (file req) as [f|] eqn:Hf; simpl.
  - destruct Hup as [|[url Hu]]; [done|]. rewrite Hu. simpl.
    rewrite Hp. done.
  - rewrite Hp. simpl. by rewrite app_nil_r.
Qed.

(** Writing back a value that fell back to the stored one changes nothing,
    whatever the store does with [undefined]. *)
Lemma set_field_js_or omit (a old : option string) :
  set_field omit old (js_or a old) = js_or a old.
Proof.
  unfold set_field, js_or. destruct (truthy a) eqn:Ha.
  - destruct a; [done|discriminate].
  - destruct old, omit; done.
Qed.

(** C5: an update with no file and no [imageUrl] in the body leaves the
    stored [imageUrl] as it was. *)
Theorem update_keeps_imageUrl omit env id req w p :
  posts w !! id = Some p →
  file req = None →
  b_imageUrl (body req) = None →
  status (updatePost omit env id req w).1 = 200%N ∧
  ∃ p', posts (updatePost omit env id req w).2 !! id = Some p' ∧
        imageUrl p' = imageUrl p.
Proof.
  intros Hp Hf Hb.
  rewrite (updatePost_found omit env id req w p Hp (or_introl Hf)).
  simpl. split; [done|]. eexists. rewrite lookup_insert_eq. split; [done|].
  simpl. rewrite Hf, Hb. apply (set_field_js_or omit None).
Qed.

Lemma update_keeps_imageUrl_witness :
  status (updatePost true quiet 1%positive content_only w_kyoto).1 = 200%N ∧
  ∃ p', posts (updatePost true quiet 1%positive content_only w_kyoto).2
          !! 1%positive = Some p' ∧
        imageUrl p' = imageUrl kyoto.
Proof.
  apply (update_keeps_imageUrl true quiet 1%positive content_only w_kyoto kyoto);
    reflexivity.
Defined.

(** C10: an update with no file whose body gives [imageUrl] as the empty
    string leaves the stored [imageUrl] as it was: the empty string counts as
    absent and the fallback applies. *)
Theorem update_empty_imageUrl_falls_back omit env id req w p :
  posts w !! id = Some p →
  file req = None →
  b_imageUrl (body req) = Some ""%string →
  status (updatePost omit env id req w).1 = 200%N ∧
  ∃ p', posts (updatePost omit env id req w).2 !! id = Some p' ∧
        imageUrl p' = imageUrl p.
Proof.
  intros Hp Hf Hb.
  rewrite (updatePost_found omit env id req w p Hp (or_introl Hf)).
  simpl. split; [done|]. eexists. rewrite lookup_insert_eq. split; [done|].
  simpl. rewrite Hf, Hb. apply (set_field_js_or omit (Some ""%string)).
Qed.

Lemma update_empty_imageUrl_falls_back_witness :
  status (updatePost false quiet 1%positive
            (mkRequest (mkBody (Some "Kyoto") (Some "temples") None (Some "")
                               Absent) None) w_kyoto).1 = 200%N ∧
  ∃ p', posts (updatePost false quiet 1%positive
                 (mkRequest (mkBody (Some "Kyoto") (Some "temples") None
                                    (Some "") Absent) None) w_kyoto).2
          !! 1%positive = Some p' ∧
        imageUrl p' = imageUrl kyoto.
Proof.
  apply (update_empty_imageUrl_falls_back false quiet 1%positive
           (mkRequest (mkBody (Some "Kyoto") (Some "temples") None (Some "")
                              Absent) None) w_kyoto kyoto);
    reflexivity.
Defined.

(** C1, as the code has it: in an update of an existing post that goes
    through, [imageUrl] is the uploaded URL, else the body's non-empty
    [imageUrl], else the stored one; each of title, content, location and tags
    that the request gives replaces the stored value; each of them that the
    request omits is handed to the store as [undefined], with no fallback in
    the handler, so that a store which writes such keys clears the field and a
    store which drops them keeps the stored value. *)
Theorem update_fields omit env id req w p :
  posts w !! id = Some p →
  (file req = None ∨ ∃ url, upload_outcome env = Uploaded url) →
  ∃ p', (updatePost omit env id req w).1 = mkResponse 200 (JPost (id, p')) ∧
        posts (updatePost omit env id req w).2 !! id = Some p' ∧
        (file req = None →
           imageUrl p' = js_or (b_imageUrl (body req)) (imageUrl p)) ∧
        (∀ f url, file req = Some f → upload_outcome env = Uploaded url →
           imageUrl p' = Some url) ∧
        (∀ v, b_title (body req) = Some v → title p' = Some v) ∧
        (∀ v, b_content (body req) = Some v → content p' = Some v) ∧
        (∀ v, b_location (body req) = Some v → location p' = Some v) ∧
        (∀ v, cast_tags (b_tags (body req)) = Some v → tags p' = Some v) ∧
        (b_title (body req) = None →
           title p' = if omit then title p else None) ∧
        (b_content (body req) = None →
           content p' = if omit then content p else None) ∧
        (b_location (body req) = None →
           location p' = if omit then location p else None) ∧
        (b_tags (body req) = Absent →
           tags p' = if omit then tags p else None).
Proof.
  intros Hp Hup.
  rewrite (updatePost_found omit env id req w p Hp Hup). simpl.
  eexists. split; [done|]. rewrite lookup_insert_eq. split; [done|]. simpl.
  split_and!.
  - intros ->. apply set_field_js_or.
  - intros f url -> ->. done.
  - intros v ->. done.
  - intros v ->. done.
  - intros v ->. done.
  - intros v ->. done.
  - intros ->. done.
  - intros ->. done.
  - intros ->. done.
  - intros ->. done.
Qed.

Lemma update_fields_witness :
  ∃ p', (updatePost false quiet 1%positive content_only w_kyoto).1
          = mkResponse 200 (JPost (1%positive, p')) ∧
        posts (updatePost false quiet 1%positive content_only w_kyoto).2
          !! 1%positive = Some p' ∧
        content p' = Some "shrines"%string ∧
        title p' = None ∧
        tags p' = None ∧
        imageUrl p' = imageUrl kyoto.
Proof.
  destruct (update_fields false quiet 1%positive content_only w_kyoto kyoto
              eq_refl (or_introl eq_refl))
    as (p' & Hr & Hp' & Him & _ & _ & Hco & _ & _ & Hti & _ & _ & Htg).
  exists p'. split_and!; [exact Hr|exact Hp'|..].
  - exact (Hco "shrines"%string eq_refl).
  - exact (Hti eq_refl).
  - exact (Htg eq_refl).
  - exact (Him eq_refl).
Defined.

(** C1, as stated, fails on a store that drops [undefined] keys: the request
    [content_only] omits the title and the tags, and after the update the
    record still has the title and the tags it had. *)
Lemma update_omitted_fields_survive :
  b_title (body content_only) = None ∧
  b_tags (body content_only) = Absent ∧
  status (updatePost true quiet 1%positive content_only w_kyoto).1 = 200%N ∧
  posts (updatePost true quiet 1%positive content_only w_kyoto).2 !! 1%positive
  = Some (mkPost (Some "Kyoto") (Some "shrines") None None
                 (Some ["asia"; "temple"]) 100 101).
Proof. split_and!; reflexivity. Qed.

(** ** Listing *)

Lemma elem_of_find_sorted q w d :
  d ∈ find_sorted q w ↔ posts w !! d.1 = Some d.2 ∧ query_matches q d.2 = true.
Proof.
  unfold find_sorted. rewrite merge_sort_Permutation, list_elem_of_filter.
  destruct d as [id p]. rewrite elem_of_map_to_list. simpl. tauto.
Qed.

Lemma find_sorted_sorted q w : StronglySorted newest_first (find_sorted q w).
Proof. apply StronglySorted_merge_sort; apply _. Qed.

(** The listing handler, outcome by outcome. *)
Lemma getPosts_eq beyond search w :
  getPosts beyond search w =
    if truthy search then
      match compile beyond (trim (default ""%string search)) with
      | Compiles test =>
          (mkResponse 200 (JPosts (find_sorted (Some test) w)), w)
      | SyntaxError message => (mkResponse 500 (JMessage message), w)
      end
    else (mkResponse 200 (JPosts (find_sorted None w)), w).
Proof.
  unfold getPosts, construct_RegExp. unfold_M.
  destruct (truthy search); [destruct (compile _ _)|]; done.
Qed.

Lemma find_sorted_all w : find_sorted None w ≡ₚ map_to_list (posts w).
Proof.
  unfold find_sorted. rewrite merge_sort_Permutation.
  induction (map_to_list (posts w)) as [|d l IH]; [done|].
  rewrite filter_cons_True by done. by rewrite IH.
Qed.

(** C7: without a search parameter the listing holds every record of the
    collection, each once; and whatever the search, a listing that is
    answered is ordered by [createdAt], newest first.  The only other answer
    is 500, for a search term whose pattern the constructor rejects. *)
Theorem listing_all_newest_first beyond search w :
  (search = None →
     ∃ l, getPosts beyond search w = (mkResponse 200 (JPosts l), w) ∧
          l ≡ₚ map_to_list (posts w)) ∧
  (∀ r w', getPosts beyond search w = (r, w') →
     (∃ l, r = mkResponse 200 (JPosts l) ∧ StronglySorted newest_first l) ∨
     (∃ s message, search = Some s ∧ s ≠ ""%string ∧
                   compile beyond (trim s) = SyntaxError message ∧
                   r = mkResponse 500 (JMessage message))).
Proof.
  split.
  - intros ->. eexists. split; [reflexivity|]. apply find_sorted_all.
  - intros r w'. rewrite getPosts_eq.
    destruct search as [[|c s]|]; simpl.
    + intros [= <- <-]. left. eexists. split; [done|]. apply find_sorted_sorted.
    + destruct (compile beyond (trim (String c s))) as [test|message] eqn:Hc;
        intros [= <- <-].
      * left. eexists. split; [done|]. apply find_sorted_sorted.
      * right. by exists (String c s), message.
    + intros [= <- <-]. left. eexists. split; [done|]. apply find_sorted_sorted.
Qed.

Lemma listing_all_newest_first_witness :
  (∃ l, getPosts rejecting None w_trip = (mkResponse 200 (JPosts l), w_trip) ∧
        l ≡ₚ map_to_list (posts w_trip)) ∧
  ((∃ l, mkResponse 200 (JPosts [(2%positive, osaka); (1%positive, kyoto)])
           = mkResponse 200 (JPosts l) ∧
         StronglySorted newest_first l) ∨
   (∃ s message, Some "temple"%string = Some s ∧ s ≠ ""%string ∧
                 compile rejecting (trim s) = SyntaxError message ∧
                 mkResponse 200 (JPosts [(2%positive, osaka); (1%positive, kyoto)])
                   = mkResponse 500 (JMessage message))).
Proof.
  split.
  - apply (proj1 (listing_all_newest_first rejecting None w_trip)). reflexivity.
  - apply (proj2 (listing_all_newest_first rejecting (Some "temple") w_trip)
             (mkResponse 200 (JPosts [(2%positive, osaka); (1%positive, kyoto)]))
             w_trip).
    reflexivity.
Defined.

(** The pattern compiled from a plain term is the term, character by
    character. *)
Lemma parse_atom_plain c : is_meta c = false → parse_atom c = Some (Lit c).
Proof.
  intros Hc. unfold parse_atom. rewrite Hc.
  case_bool_decide as Hdot; [by subst c|done].
Qed.

Lemma new_RegExp_plain term :
  plain term → new_RegExp term = Some (Lit <$> list_ascii_of_string term).
Proof.
  unfold plain, new_RegExp. intros H.
  apply mapM_Some, Forall2_fmap_r, Forall_Forall2_diag.
  eapply Forall_impl; [exact H|]. intros c Hc. by apply parse_atom_plain.
Qed.

(** A pattern of literals matches at the head of [s] when [s], case folded,
    starts with the folded literals. *)
Lemma match_here_lits t s :
  match_here (Lit <$> t) s = true ↔
  ∃ suf, toUpper <$> s = (toUpper <$> t) ++ suf.
Proof.
  revert s. induction t as [|c t IH]; intros s; csimpl.
  - split; [eauto|done].
  - destruct s as [|x s]; csimpl.
    + split; [done|]. by intros [suf Hs].
    + rewrite andb_true_iff, bool_decide_eq_true, IH. split.
      * intros [Hc [suf Hs]]. exists suf. by rewrite Hc, Hs.
      * intros [suf [= Hc Hs]]. eauto.
Qed.

Lemma search_from_spec r s :
  search_from r s = true ↔
  ∃ pre rest, s = pre ++ rest ∧ match_here r rest = true.
Proof.
  induction s as [|x s IH]; simpl.
  - rewrite orb_false_r. split.
    + intros H. by exists [], [].
    + intros (pre & rest & Hs & H). symmetry in Hs.
      apply app_eq_nil in Hs as [-> ->]. done.
  - rewrite orb_true_iff, IH. split.
    + intros [H|(pre & rest & -> & H)].
      * by exists [], (x :: s).
      * by exists (x :: pre), rest.
    + intros ([|y pre] & rest & Hs & H); simpl in Hs.
      * subst rest. by left.
      * injection Hs as -> ->. right. eauto.
Qed.

Lemma RegExp_test_lits term s :
  RegExp_test (Lit <$> list_ascii_of_string term) s = true ↔ occurs_in term s.
Proof.
  unfold RegExp_test, occurs_in, fold_case. rewrite search_from_spec. split.
  - intros (pre & rest & -> & H). apply match_here_lits in H as [suf H].
    exists (toUpper <$> pre), suf. by rewrite fmap_app, H.
  - intros (pre & suf & H).
    apply fmap_app_inv in H as (pre' & rest & -> & Hrest & ->).
    exists pre', rest. split; [done|]. apply match_here_lits. eauto.
Qed.

Lemma field_matches_lits term v :
  field_matches (RegExp_test (Lit <$> list_ascii_of_string term)) v = true ↔
  occurs_in_field term v.
Proof.
  unfold occurs_in_field. destruct v as [s|]; simpl.
  - rewrite RegExp_test_lits. split; [eauto|]. by intros (s' & [= <-] & H).
  - split; [done|]. by intros (s' & ? & _).
Qed.

Lemma array_matches_lits term v :
  array_matches (RegExp_test (Lit <$> list_ascii_of_string term)) v = true ↔
  ∃ ts t, v = Some ts ∧ t ∈ ts ∧ occurs_in term t.
Proof.
  destruct v as [ts|]; simpl.
  - rewrite existsb_exists. split.
    + intros (t & Hin & H). exists ts, t.
      by rewrite list_elem_of_In, <- RegExp_test_lits.
    + intros (ts' & t & [= <-] & Hin & H). exists t.
      by rewrite <- list_elem_of_In, RegExp_test_lits.
  - split; [done|]. by intros (? & ? & ? & _).
Qed.

Lemma query_matches_lits term p :
  query_matches (Some (RegExp_test (Lit <$> list_ascii_of_string term))) p
  = true ↔
  mentions term p.
Proof.
  unfold query_matches, mentions.
  rewrite !orb_true_iff, !field_matches_lits, array_matches_lits. tauto.
Qed.

Lemma compile_plain beyond term :
  plain term →
  compile beyond term
  = Compiles (RegExp_test (Lit <$> list_ascii_of_string term)).
Proof. intros H. unfold compile. by rewrite (new_RegExp_plain _ H). Qed.




(** ** Tags *)

Lemma elem_of_unwind_tags (docs : list Doc) t :
  t ∈ unwind_tags docs ↔ ∃ d ts, d ∈ docs ∧ tags d.2 = Some ts ∧ t ∈ ts.
Proof.
  unfold unwind_tags. rewrite list_elem_of_bind. split.
  - intros (d & Ht & Hd). destruct (tags d.2) as [ts|] eqn:E; simpl in Ht.
    + eauto.
    + by apply not_elem_of_nil in Ht.
  - intros (d & ts & Hd & E & Ht). exists d. by rewrite E.
Qed.

(** C8: the tag listing answers with the tags that occur in some record,
    each exactly once, in ascending order, and leaves the world as it is. *)
Theorem tags_distinct_sorted w :
  ∃ l, getTags w = (mkResponse 200 (JTags l), w) ∧
       NoDup l ∧
       StronglySorted String.le l ∧
       ∀ t, t ∈ l ↔
            ∃ id p ts, posts w !! id = Some p ∧ tags p = Some ts ∧ t ∈ ts.
Proof.
  exists (aggregate_tags w). split; [done|]. unfold aggregate_tags. split_and!.
  - rewrite merge_sort_Permutation. apply NoDup_remove_dups.
  - apply StronglySorted_merge_sort; apply _.
  - intros t. rewrite merge_sort_Permutation, elem_of_remove_dups,
      elem_of_unwind_tags. split.
    + intros ([id p] & ts & Hd & E & Ht). apply elem_of_map_to_list in Hd.
      eauto 6.
    + intros (id & p & ts & Hp & E & Ht). exists (id, p), ts.
      by rewrite elem_of_map_to_list.
Qed.

(** ** Timestamps *)

Lemma handle_effect omit c w r w' :
  handle omit c w = (r, w') → Effect w c r w'.
Proof.
  destruct c as [beyond search|id|env req|env id req|id|]; simpl.
  - rewrite getPosts_eq.
    destruct (truthy search); [destruct (compile _ _)|]; intros [= <- <-];
      by apply eff_none.
  - unfold getPost. unfold_M.
    destruct (posts w !! id); intros [= <- <-]; by apply eff_none.
  - unfold createPost.
    destruct (negb _ || negb _) eqn:Hv; simpl.
    { intros [= <- <-]. by apply eff_none. }
    apply orb_false_elim in Hv as [Ht Hc].
    apply negb_false_iff in Ht, Hc. unfold_M. simpl.
    destruct (file req) as [f|]; simpl;
      [destruct (upload_outcome env) as [url|e]; simpl|].
    + rewrite Ht, Hc. simpl. intros [= <- <-].
      eapply eff_created; simpl; try done; lia.
    + intros [= <- <-]. by apply eff_none.
    + rewrite Ht, Hc. simpl. intros [= <- <-].
      eapply eff_created; simpl; try done; lia.
  - unfold updatePost. unfold_M.
    destruct (posts w !! id) as [p|] eqn:Hp; simpl.
    2:{ intros [= <- <-]. by apply eff_none. }
    destruct (file req) as [f|]; simpl;
      [destruct (upload_outcome env) as [url|e]; simpl|].
    + rewrite Hp. intros [= <- <-]. eapply eff_updated; simpl; done.
    + intros [= <- <-]. by apply eff_none.
    + rewrite Hp. intros [= <- <-]. eapply eff_updated; simpl; done.
  - unfold deletePost. unfold_M.
    destruct (posts w !! id) as [p|] eqn:Hp; simpl; intros [= <- <-];
      by eapply eff_deleted.
  - unfold getTags. unfold_M. intros [= <- <-]. by apply eff_none.
Qed.

Lemma reachable_invariant omit w :
  reachable omit w → timestamps_ok w ∧ ids_fresh w.
Proof.
  induction 1 as [t|w c r w' Hw [IHt IHi] Hstep].
  - split; intros id p; simpl; by rewrite lookup_empty.
  - apply handle_effect in Hstep.
    destruct Hstep as [Hp Hn Ht _ _
                      |env req p -> -> Hp Hn Hc Hu Ht
                      |env id req p p' -> Hold Hp Hn Hc Hu Ht
                      |id -> Hp Hn Ht].
    + split; intros id p; rewrite Hp, ?Hn, ?Ht; [apply IHt|apply IHi].
    + split; intros id q; rewrite Hp, ?Hn, ?Ht, lookup_insert;
        case_decide; subst.
      * intros [= <-]. lia.
      * intros Hq. apply IHt in Hq. lia.
      * intros _. lia.
      * intros Hq. apply IHi in Hq. lia.
    + split; intros id' q; rewrite Hp, ?Hn, ?Ht, lookup_insert;
        case_decide; subst.
      * intros [= <-]. apply IHt in Hold. lia.
      * intros Hq. apply IHt in Hq. lia.
      * intros _. by apply IHi in Hold.
      * apply IHi.
    + split; intros id' q; rewrite Hp, ?Hn, ?Ht, lookup_delete;
        case_decide; try done; [apply IHt|apply IHi].
Qed.

(** C3, as the code has it: after every call on a reachable world every
    record has [createdAt <= updatedAt]; a record that is still there has the
    [createdAt] it had and an [updatedAt] that is not smaller; a created
    record is new, and its [updatedAt] is its [createdAt] plus the time that
    passed until it was saved; an update that succeeds sets [updatedAt] to the
    reading of the clock during the update. *)
Theorem timestamps_after_every_call omit w c r w' :
  reachable omit w →
  handle omit c w = (r, w') →
  (∀ id p', posts w' !! id = Some p' → createdAt p' ≤ updatedAt p') ∧
  (∀ id p p', posts w !! id = Some p → posts w' !! id = Some p' →
     createdAt p' = createdAt p ∧ updatedAt p ≤ updatedAt p') ∧
  (∀ env req d, c = POST_posts env req → json r = JPost d →
     posts w !! d.1 = None ∧ posts w' !! d.1 = Some d.2 ∧
     updatedAt d.2 = createdAt d.2 + Z.of_N (tick_updatedAt env)
                     + Z.of_N (tick_presave env)) ∧
  (∀ env id req p', c = PUT_post env id req → status r = 200%N →
     posts w' !! id = Some p' → updatedAt p' = now w').
Proof.
  intros Hw Hstep.
  assert (reachable omit w') as Hw' by (by eapply reach_step).
  apply reachable_invariant in Hw as [IHt IHi], Hw' as [IHt' _].
  apply handle_effect in Hstep.
  split_and!.
  - intros id p' Hp'. by destruct (IHt' _ _ Hp').
  - intros id0 q q'.
    destruct Hstep as [Hp Hn Ht _ _
                      |env req p -> -> Hp Hn Hc Hu Ht
                      |env id req p p' -> Hold Hp Hn Hc Hu Ht
                      |id -> Hp Hn Ht]; rewrite Hp.
    + intros Hq Hq'; rewrite Hq in Hq'; injection Hq' as <-; lia.
    + rewrite lookup_insert. case_decide; subst.
      * intros Hq. apply IHi in Hq. lia.
      * intros Hq Hq'; rewrite Hq in Hq'; injection Hq' as <-; lia.
    + rewrite lookup_insert. case_decide; subst.
      * rewrite Hold. intros [= <-] [= <-]. apply IHt in Hold. lia.
      * intros Hq Hq'; rewrite Hq in Hq'; injection Hq' as <-; lia.
    + rewrite lookup_delete. case_decide; [done|].
      intros Hq Hq'; rewrite Hq in Hq'; injection Hq' as <-; lia.
  - intros env0 req0 d -> Hd.
    destruct Hstep as [_ _ _ Hno _
                      |env req p [= <- <-] -> Hp Hn Hc Hu Ht
                      |env id req p p' [=] _ _ _ _ _ _
                      |id [=] _ _ _].
    + by destruct (Hno env0 req0 d).
    + simpl in Hd. injection Hd as <-. simpl. rewrite Hp, lookup_insert_eq.
      split_and!; [|done..].
      destruct (posts w !! nextId w) as [q|] eqn:Hq; [|done].
      apply IHi in Hq. lia.
  - intros env0 id0 req0 q -> Hs.
    destruct Hstep as [_ _ _ _ Hno
                      |env req p [=] _ _ _ _ _ _
                      |env id req p p' [= <- <- <-] Hold Hp Hn Hc Hu Ht
                      |id [=] _ _ _].
    + by destruct (Hno env0 id0 req0).
    + rewrite Hp, lookup_insert_eq. intros [= <-]. lia.
Qed.

Lemma timestamps_after_every_call_witness :
  (∀ id p', posts w_kyoto !! id = Some p' → createdAt p' ≤ updatedAt p') ∧
  posts (start 100) !! 1%positive = None ∧
  posts w_kyoto !! 1%positive = Some kyoto ∧
  updatedAt kyoto = createdAt kyoto + Z.of_N (tick_updatedAt slow_save)
                    + Z.of_N (tick_presave slow_save).
Proof.
  destruct (timestamps_after_every_call true (start 100)
              (POST_posts slow_save (mkRequest kyoto_form None))
              (mkResponse 201 (JPost (1%positive, kyoto))) w_kyoto
              (reach_start true 100) eq_refl)
    as (Hinv & _ & Hnew & _).
  split; [exact Hinv|].
  exact (Hnew slow_save (mkRequest kyoto_form None) (1%positive, kyoto)
           eq_refl eq_refl).
Defined.

(** C3, as stated, fails twice: the record [kyoto] is created at 100 and
    saved at 101, so its two timestamps differ from the start; and an update
    in the millisecond of the save leaves [updatedAt] at 101. *)
Lemma created_and_updated_within_a_millisecond :
  createPost slow_save (mkRequest kyoto_form None) (start 100)
    = (mkResponse 201 (JPost (1%positive, kyoto)), w_kyoto) ∧
  createdAt kyoto ≠ updatedAt kyoto ∧
  status (updatePost true quiet 1%positive content_only w_kyoto).1 = 200%N ∧
  updatedAt <$> posts (updatePost true quiet 1%positive content_only w_kyoto).2
                  !! 1%positive
  = Some (updatedAt kyoto).
Proof. split_and!; [reflexivity|discriminate|reflexivity..]. Qed.

(** * Further properties of the handlers *)

(** ** The three ways a create request ends *)

Lemma createPost_refused env req w :
  truthy (b_title (body req)) = false ∨ truthy (b_content (body req)) = false →
  createPost env req w =
    (mkResponse 400 (JMessage "Title and content are required"), w).
Proof.
  intros H. unfold createPost.
  destruct H as [-> | ->]; simpl; rewrite ?orb_true_r; done.
Qed.

Lemma createPost_host_failed env req w f msg :
  truthy (b_title (body req)) = true →
  truthy (b_content (body req)) = true →
  file req = Some f →
  upload_outcome env = UploadError msg →
  createPost env req w =
    (mkResponse 400 (JMessage ("Failed to create post: " +:+ msg)),
     mkWorld (posts w) (nextId w) (now w) (uploads w ++ [f])).
Proof.
  intros Ht Hc Hf Hu. unfold createPost. rewrite Ht, Hc, Hf. simpl.
  unfold_M. simpl. by rewrite Hu.
Qed.

Lemma createPost_accepted env req w :
  truthy (b_title (body req)) = true →
  truthy (b_content (body req)) = true →
  (file req = None ∨ ∃ url, upload_outcome env = Uploaded url) →
  let c := now w + Z.of_N (tick_createdAt env) in
  let t := c + Z.of_N (tick_updatedAt env) + Z.of_N (tick_presave env) in
  let im := match file req, upload_outcome env with
            | Some _, Uploaded url => Some url
            | _, _ => None
            end in
  let p := mkPost (b_title (body req)) (b_content (body req)) im
             (b_location (body req))
             (Some (normalize_tags (b_tags (body req)))) c t in
  createPost env req w =
    (mkResponse 201 (JPost (nextId w, p)),
     mkWorld (<[nextId w := p]> (posts w)) (Pos.succ (nextId w)) t
       (uploads w ++ match file req with Some f => [f] | None => [] end)).
Proof.
  intros Ht Hc Hup. unfold createPost. rewrite Ht, Hc. simpl.
  unfold_M. simpl.
  destruct (file req) as [f|]; simpl.
  - destruct Hup as [|[url Hu]]; [done|]. rewrite Hu. simpl.
    rewrite Ht, Hc. simpl. done.
  - rewrite Ht, Hc. simpl. by rewrite app_nil_r.
Qed.

(** A create request that is answered with a document was a valid one. *)
Lemma createPost_JPost_inv env req w d :
  json (createPost env req w).1 = JPost d →
  truthy (b_title (body req)) = true ∧
  truthy (b_content (body req)) = true ∧
  (file req = None ∨ ∃ url, upload_outcome env = Uploaded url).
Proof.
  destruct (truthy (b_title (body req))) eqn:Ht;
    [|rewrite createPost_refused by auto; done].
  destruct (truthy (b_content (body req))) eqn:Hc;
    [|rewrite createPost_refused by auto; done].
  destruct (file req) as [f|] eqn:Hf; [|auto].
  destruct (upload_outcome env) as [url|msg] eqn:Hu; [eauto 6|].
  by rewrite (createPost_host_failed env req w f msg).
Qed.

(** X1: a create request that is answered with a document is answered
    with 201; the document is stored under the store's next identifier and
    has the title, content and location of the request; its [imageUrl] is the
    uploaded URL when a file came with the request and absent otherwise,
    whatever the body says; the media host is sent the file, once, and
    nothing without one. *)
Theorem create_accepted env req w d :
  json (createPost env req w).1 = JPost d →
  (createPost env req w).1 = mkResponse 201 (JPost d) ∧
  d.1 = nextId w ∧
  posts (createPost env req w).2 !! d.1 = Some d.2 ∧
  title d.2 = b_title (body req) ∧
  content d.2 = b_content (body req) ∧
  location d.2 = b_location (body req) ∧
  (file req = None →
     imageUrl d.2 = None ∧
     uploads (createPost env req w).2 = uploads w) ∧
  (∀ f, file req = Some f →
     ∃ url, upload_outcome env = Uploaded url ∧
            imageUrl d.2 = Some url ∧
            uploads (createPost env req w).2 = uploads w ++ [f]).
Proof.
  intros Hd. destruct (createPost_JPost_inv env req w d Hd) as (Ht & Hc & Hup).
  revert Hd. rewrite (createPost_accepted env req w Ht Hc Hup). simpl.
  intros [= <-]. simpl. rewrite lookup_insert_eq.
  split_and!; try done.
  - intros ->. by rewrite app_nil_r.
  - intros f Hf. rewrite Hf in *. destruct Hup as [|[url Hu]]; [done|].
    exists url. by rewrite Hu.
Qed.

Lemma create_accepted_witness :
  (createPost quiet kyoto_with_photo w_kyoto).1
    = mkResponse 201
        (JPost (2%positive,
                mkPost (Some "Kyoto") (Some "temples")
                  (Some "https://media.example/kyoto.jpg") None
                  (Some ["asia"; "temple"]) 101 101)) ∧
  uploads (createPost quiet kyoto_with_photo w_kyoto).2
    = uploads w_kyoto ++ [photo].
Proof.
  destruct (create_accepted quiet kyoto_with_photo w_kyoto
              (2%positive,
               mkPost (Some "Kyoto") (Some "temples")
                 (Some "https://media.example/kyoto.jpg") None
                 (Some ["asia"; "temple"]) 101 101) eq_refl)
    as (Hr & _ & _ & _ & _ & _ & _ & Hfile).
  split; [exact Hr|].
  destruct (Hfile photo eq_refl) as (url & _ & _ & Hup). exact Hup.
Defined.

(** X2: the two failures of create that the handler words itself.  A blank
    title or content is answered with 400 and
    [Title and content are required], and nothing at all has happened.  When
    title and content are there and the media host refuses the file, the
    answer is 400 with the host's message after [Failed to create post: ],
    the collection is as it was and the file was sent. *)
Theorem create_failure_answers env req w :
  (blank (b_title (body req)) ∨ blank (b_content (body req)) →
     createPost env req w
     = (mkResponse 400 (JMessage "Title and content are required"), w)) ∧
  (∀ f msg,
     ¬ blank (b_title (body req)) → ¬ blank (b_content (body req)) →
     file req = Some f → upload_outcome env = UploadError msg →
     (createPost env req w).1
       = mkResponse 400 (JMessage ("Failed to create post: " +:+ msg)) ∧
     posts (createPost env req w).2 = posts w ∧
     uploads (createPost env req w).2 = uploads w ++ [f]).
Proof.
  rewrite <- !truthy_blank. split.
  - apply createPost_refused.
  - intros f msg Ht Hc Hf Hu. rewrite <- truthy_blank in Ht, Hc.
    apply not_false_iff_true in Ht, Hc.
    by rewrite (createPost_host_failed env req w f msg).
Qed.

Lemma create_failure_answers_witness :
  createPost quiet (mkRequest (mkBody (Some "") (Some "temples") None None
                                      Absent) (Some photo)) w_kyoto
    = (mkResponse 400 (JMessage "Title and content are required"), w_kyoto) ∧
  (createPost host_down kyoto_with_photo w_kyoto).1
    = mkResponse 400
        (JMessage ("Failed to create post: " +:+ "connection refused")) ∧
  posts (createPost host_down kyoto_with_photo w_kyoto).2 = posts w_kyoto ∧
  uploads (createPost host_down kyoto_with_photo w_kyoto).2
    = uploads w_kyoto ++ [photo].
Proof.
  split.
  - apply (proj1 (create_failure_answers quiet
                    (mkRequest (mkBody (Some "") (Some "temples") None None
                                       Absent) (Some photo)) w_kyoto)).
    left. right. reflexivity.
  - apply (proj2 (create_failure_answers host_down kyoto_with_photo w_kyoto)
             photo "connection refused").
    + intros [H|H]; discriminate H.
    + intros [H|H]; discriminate H.
    + reflexivity.
    + reflexivity.
Defined.

(** X3: the document that a create request was answered with is what
    [GET /api/posts/:id] returns for its identifier right after. *)
Theorem create_then_get env req w d :
  json (createPost env req w).1 = JPost d →
  getPost d.1 (createPost env req w).2
  = (mkResponse 200 (JPost d), (createPost env req w).2).
Proof.
  intros Hd. destruct (createPost_JPost_inv env req w d Hd) as (Ht & Hc & Hup).
  revert Hd. rewrite (createPost_accepted env req w Ht Hc Hup). simpl.
  intros [= <-]. unfold getPost. unfold_M. simpl.
  by rewrite lookup_insert_eq.
Qed.

Lemma create_then_get_witness :
  getPost 1%positive (createPost slow_save kyoto_request (start 100)).2
  = (mkResponse 200 (JPost (1%positive, kyoto)),
     (createPost slow_save kyoto_request (start 100)).2).
Proof.
  apply (create_then_get slow_save kyoto_request (start 100) (1%positive, kyoto)).
  reflexivity.
Defined.

(** X4: on a reachable world, deleting the document that was just
    created succeeds and gives back the collection as it was before the
    creation: a new document never takes the place of another. *)
Theorem create_then_delete_restores omit env req w d :
  reachable omit w →
  json (createPost env req w).1 = JPost d →
  status (deletePost d.1 (createPost env req w).2).1 = 200%N ∧
  posts (deletePost d.1 (createPost env req w).2).2 = posts w.
Proof.
  intros Hw Hd. apply reachable_invariant in Hw as [_ Hfresh].
  destruct (createPost_JPost_inv env req w d Hd) as (Ht & Hc & Hup).
  revert Hd. rewrite (createPost_accepted env req w Ht Hc Hup). simpl.
  intros [= <-]. unfold deletePost. unfold_M. simpl.
  rewrite lookup_insert_eq. simpl. split; [done|].
  apply delete_insert_id.
  destruct (posts w !! nextId w) as [q|] eqn:Hq; [|done].
  apply Hfresh in Hq. lia.
Qed.

Lemma create_then_delete_restores_witness :
  status (deletePost 1%positive
            (createPost slow_save kyoto_request (start 100)).2).1 = 200%N ∧
  posts (deletePost 1%positive
           (createPost slow_save kyoto_request (start 100)).2).2
  = posts (start 100).
Proof.
  apply (create_then_delete_restores true slow_save kyoto_request (start 100)
           (1%positive, kyoto)).
  - apply reach_start.
  - reflexivity.
Defined.

Lemma elem_of_aggregate_tags w t :
  t ∈ aggregate_tags w ↔
  ∃ id p ts, posts w !! id = Some p ∧ tags p = Some ts ∧ t ∈ ts.
Proof.
  unfold aggregate_tags.
  rewrite merge_sort_Permutation, elem_of_remove_dups, elem_of_unwind_tags.
  split.
  - intros ([id p] & ts & Hd & E & Ht). apply elem_of_map_to_list in Hd.
    eauto 6.
  - intros (id & p & ts & Hp & E & Ht). exists (id, p), ts.
    by rewrite elem_of_map_to_list.
Qed.

(** X5: after a post was created, every tag of the request (the one
    non-empty tag, or each element of the array) is in the tag listing. *)
Theorem create_then_tags env req w d :
  json (createPost env req w).1 = JPost d →
  ∃ l, (getTags (createPost env req w).2).1 = mkResponse 200 (JTags l) ∧
       (∀ s, s ≠ ""%string → b_tags (body req) = Scalar s → s ∈ l) ∧
       (∀ ts t, b_tags (body req) = Many ts → t ∈ ts → t ∈ l).
Proof.
  intros Hd. destruct (createPost_JPost_inv env req w d Hd) as (Ht & Hc & Hup).
  rewrite (createPost_accepted env req w Ht Hc Hup). simpl.
  eexists. split; [reflexivity|].
  split.
  - intros s Hs Htags. apply elem_of_aggregate_tags. simpl.
    eexists _, _, _. rewrite lookup_insert_eq. split; [done|]. simpl.
    split; [done|]. rewrite Htags. unfold normalize_tags. simpl.
    destruct s; [done|]. apply list_elem_of_singleton. done.
  - intros ts t Htags Hin. apply elem_of_aggregate_tags. simpl.
    eexists _, _, _. rewrite lookup_insert_eq. split; [done|]. simpl.
    split; [done|]. by rewrite Htags.
Qed.

Lemma create_then_tags_witness :
  ∃ l, (getTags (createPost slow_save kyoto_request (start 100)).2).1
         = mkResponse 200 (JTags l) ∧
       "temple"%string ∈ l.
Proof.
  destruct (create_then_tags slow_save kyoto_request (start 100)
              (1%positive, kyoto) eq_refl) as (l & Hl & _ & Hmany).
  exists l. split; [exact Hl|].
  apply (Hmany ["asia"; "temple"]%string); [reflexivity|].
  apply list_elem_of_In. right. left. reflexivity.
Defined.

(** X6: a created post always has a tag list: empty when the request
    has no tags or an empty text, the one-element list for a single non-empty
    text, and the array itself when the request has an array. *)
Theorem create_normalizes_tags env req w d :
  json (createPost env req w).1 = JPost d →
  ∃ ts, tags d.2 = Some ts ∧
        (b_tags (body req) = Absent → ts = []) ∧
        (b_tags (body req) = Scalar "" → ts = []) ∧
        (∀ s, s ≠ ""%string → b_tags (body req) = Scalar s → ts = [s]) ∧
        (∀ l, b_tags (body req) = Many l → ts = l).
Proof.
  intros Hd. destruct (createPost_JPost_inv env req w d Hd) as (Ht & Hc & Hup).
  revert Hd. rewrite (createPost_accepted env req w Ht Hc Hup). simpl.
  intros [= <-]. simpl. eexists. split; [done|].
  split_and!.
  - by intros ->.
  - by intros ->.
  - intros s Hs ->. by destruct s.
  - by intros l ->.
Qed.

Lemma create_normalizes_tags_witness :
  ∃ ts, tags kyoto = Some ts ∧ ts = ["asia"; "temple"]%string.
Proof.
  destruct (create_normalizes_tags slow_save kyoto_request (start 100)
              (1%positive, kyoto) eq_refl) as (ts & Hts & _ & _ & _ & Hmany).
  exists ts. split; [exact Hts|]. apply Hmany. reflexivity.
Defined.

(** ** The three ways an update request ends *)

Lemma updatePost_missing omit env id req w :
  posts w !! id = None →
  updatePost omit env id req w
  = (mkResponse 404 (JMessage "Post not found"), w).
Proof. intros Hp. unfold updatePost. unfold_M. by rewrite Hp. Qed.

Lemma updatePost_host_failed omit env id req w p f msg :
  posts w !! id = Some p →
  file req = Some f →
  upload_outcome env = UploadError msg →
  updatePost omit env id req w =
    (mkResponse 400 (JMessage ("Failed to update post: " +:+ msg)),
     mkWorld (posts w) (nextId w) (now w) (uploads w ++ [f])).
Proof.
  intros Hp Hf Hu. unfold updatePost. unfold_M. rewrite Hp, Hf. simpl.
  by rewrite Hu.
Qed.

(** X7: an update whose route parameter names an identifier that no
    record has is answered with 404 and nothing happens; in particular a file
    that came with the request is not sent to the media host. *)
Theorem update_missing_post omit env param id req w :
  castObjectId param = Some id →
  posts w !! id = None →
  route_put omit env param req w
  = (mkResponse 404 (JMessage "Post not found"), w).
Proof.
  intros Hc Hp. unfold route_put. rewrite Hc. by apply updatePost_missing.
Qed.

Lemma update_missing_post_witness :
  route_put true quiet param_7 kyoto_with_photo w_kyoto
  = (mkResponse 404 (JMessage "Post not found"), w_kyoto).
Proof.
  apply (update_missing_post true quiet param_7 7%positive kyoto_with_photo
           w_kyoto); reflexivity.
Defined.

(** X8: when the media host refuses the file of an update, the answer
    is 400 with the host's message and the collection is as it was; the file
    was sent. *)
Theorem update_upload_failure omit env id req w p f msg :
  posts w !! id = Some p →
  file req = Some f →
  upload_outcome env = UploadError msg →
  (updatePost omit env id req w).1 =
    mkResponse 400 (JMessage ("Failed to update post: " +:+ msg)) ∧
  posts (updatePost omit env id req w).2 = posts w ∧
  uploads (updatePost omit env id req w).2 = uploads w ++ [f].
Proof.
  intros Hp Hf Hu. by rewrite (updatePost_host_failed omit env id req w p f msg).
Qed.

Lemma update_upload_failure_witness :
  (updatePost true host_down 1%positive kyoto_with_photo w_kyoto).1 =
    mkResponse 400
      (JMessage ("Failed to update post: " +:+ "connection refused")) ∧
  posts (updatePost true host_down 1%positive kyoto_with_photo w_kyoto).2
    = posts w_kyoto ∧
  uploads (updatePost true host_down 1%positive kyoto_with_photo w_kyoto).2
    = uploads w_kyoto ++ [photo].
Proof.
  apply (update_upload_failure true host_down 1%positive kyoto_with_photo
           w_kyoto kyoto photo "connection refused"); reflexivity.
Defined.

Lemma is_Some_insert_existing (m : gmap ObjectId Post) i j x y :
  m !! i = Some x → is_Some (<[i := y]> m !! j) ↔ is_Some (m !! j).
Proof.
  intros Hi. rewrite lookup_insert_is_Some. split.
  - intros [<-|[_ H]]; [by rewrite Hi|done].
  - intros H. destruct (decide (i = j)); auto.
Qed.

(** X9: an update, however it ends, leaves every other record as it
    is, neither adds nor removes a record (there is no upsert), and hands out
    no identifier. *)
Theorem update_touches_one_record omit env id req w :
  (∀ id', id' ≠ id →
     posts (updatePost omit env id req w).2 !! id' = posts w !! id') ∧
  (∀ id', is_Some (posts (updatePost omit env id req w).2 !! id') ↔
          is_Some (posts w !! id')) ∧
  nextId (updatePost omit env id req w).2 = nextId w.
Proof.
  destruct (posts w !! id) as [p|] eqn:Hp.
  2:{ rewrite updatePost_missing by done. done. }
  assert (file req = None ∨ (∃ url, upload_outcome env = Uploaded url) ∨
          ∃ f msg, file req = Some f ∧ upload_outcome env = UploadError msg)
    as [Hf|[Hu|(f & msg & Hf & Hu)]].
  { destruct (file req); [|auto]. destruct (upload_outcome env); eauto 6. }
  - rewrite (updatePost_found omit env id req w p) by auto. simpl.
    split_and!; [|intros id'; by eapply is_Some_insert_existing|done].
    intros id' Hne. by rewrite lookup_insert_ne.
  - rewrite (updatePost_found omit env id req w p) by auto. simpl.
    split_and!; [|intros id'; by eapply is_Some_insert_existing|done].
    intros id' Hne. by rewrite lookup_insert_ne.
  - rewrite (updatePost_host_failed omit env id req w p f msg) by done. done.
Qed.

Lemma update_touches_one_record_witness :
  posts (updatePost true quiet 1%positive content_only w_kyoto).2 !! 2%positive
  = posts w_kyoto !! 2%positive.
Proof.
  apply (proj1 (update_touches_one_record true quiet 1%positive content_only
                  w_kyoto)).
  discriminate.
Defined.

(** X10: the check that create makes on title and content is not made on
    update: an update without file of an existing post that gives the title
    or the content as the empty text is answered with 200 and stores the
    empty text. *)
Theorem update_stores_blank_text omit env id req w p :
  posts w !! id = Some p →
  file req = None →
  b_title (body req) = Some ""%string ∨ b_content (body req) = Some ""%string →
  status (updatePost omit env id req w).1 = 200%N ∧
  ∃ p', posts (updatePost omit env id req w).2 !! id = Some p' ∧
        (b_title (body req) = Some ""%string → title p' = Some ""%string) ∧
        (b_content (body req) = Some ""%string → content p' = Some ""%string).
Proof.
  intros Hp Hf _.
  rewrite (updatePost_found omit env id req w p Hp (or_introl Hf)). simpl.
  split; [done|]. eexists. rewrite lookup_insert_eq. split; [done|]. simpl.
  split; by intros ->.
Qed.

Lemma update_stores_blank_text_witness :
  status (updatePost true quiet 1%positive blank_title w_kyoto).1 = 200%N ∧
  ∃ p', posts (updatePost true quiet 1%positive blank_title w_kyoto).2
          !! 1%positive = Some p' ∧
        title p' = Some ""%string.
Proof.
  destruct (update_stores_blank_text true quiet 1%positive blank_title w_kyoto
              kyoto eq_refl eq_refl (or_introl eq_refl))
    as (Hs & p' & Hp' & Hti & _).
  split; [exact Hs|]. exists p'. split; [exact Hp'|]. exact (Hti eq_refl).
Defined.

(** ** Delete and get *)

(** X11: a delete leaves every record that its route parameter does not
    name as it is, sends nothing to the media host (the picture of the post
    stays there) and hands out no identifier; a second delete with the same
    parameter is answered with 404 when the parameter names an identifier,
    and like the first when it names none. *)
Theorem delete_touches_one_record param w :
  (∀ id', castObjectId param ≠ Some id' →
     posts (route_delete param w).2 !! id' = posts w !! id') ∧
  uploads (route_delete param w).2 = uploads w ∧
  nextId (route_delete param w).2 = nextId w ∧
  (∀ id, castObjectId param = Some id →
     route_delete param (route_delete param w).2
     = (mkResponse 404 (JMessage "Post not found"),
        (route_delete param w).2)) ∧
  (castObjectId param = None →
     route_delete param (route_delete param w).2 = route_delete param w).
Proof.
  unfold route_delete. destruct (castObjectId param) as [id|].
  - unfold deletePost. unfold_M.
    destruct (posts w !! id) as [p|] eqn:Hp; simpl;
      rewrite lookup_delete_eq; simpl.
    all: split_and!; try done.
    all: try (intros id' Hne; rewrite lookup_delete_ne; [done|congruence]).
    all: intros ? _; by rewrite delete_delete_eq.
  - split_and!; done.
Qed.

Lemma delete_touches_one_record_witness :
  posts (route_delete param_7 w_trip).2 !! 1%positive
    = posts w_trip !! 1%positive ∧
  route_delete param_1 (route_delete param_1 w_trip).2
    = (mkResponse 404 (JMessage "Post not found"),
       (route_delete param_1 w_trip).2) ∧
  route_delete param_abc (route_delete param_abc w_trip).2
    = route_delete param_abc w_trip.
Proof.
  destruct (delete_touches_one_record param_7 w_trip) as (Hother & _).
  destruct (delete_touches_one_record param_1 w_trip) as (_ & _ & _ & H2 & _).
  destruct (delete_touches_one_record param_abc w_trip)
    as (_ & _ & _ & _ & Hbad).
  split; [|split].
  - apply Hother. discriminate.
  - apply (H2 1%positive). reflexivity.
  - apply Hbad. reflexivity.
Defined.

(** X12: [GET /api/posts/:id] changes nothing; for a route parameter that
    names an identifier it answers 404 when no record has it and 200 with the
    stored record otherwise; for a route parameter that names none it
    answers 500. *)
Theorem get_semantics param w :
  (route_get param w).2 = w ∧
  (∀ id, castObjectId param = Some id → posts w !! id = None →
     (route_get param w).1 = mkResponse 404 (JMessage "Post not found")) ∧
  (∀ id p, castObjectId param = Some id → posts w !! id = Some p →
     (route_get param w).1 = mkResponse 200 (JPost (id, p))) ∧
  (castObjectId param = None →
     ∃ message, (route_get param w).1 = mkResponse 500 (JMessage message)).
Proof.
  unfold route_get. destruct (castObjectId param) as [id|].
  - unfold getPost. unfold_M. split_and!.
    + by destruct (posts w !! id).
    + by intros ? [= <-] ->.
    + by intros ? p [= <-] ->.
    + done.
  - split_and!; try done. intros _. by eexists.
Qed.

Lemma get_semantics_witness :
  (route_get param_7 w_kyoto).1
    = mkResponse 404 (JMessage "Post not found") ∧
  (route_get param_1 w_kyoto).1
    = mkResponse 200 (JPost (1%positive, kyoto)) ∧
  ∃ message,
    (route_get param_abc w_kyoto).1 = mkResponse 500 (JMessage message).
Proof.
  destruct (get_semantics param_7 w_kyoto) as (_ & H404 & _).
  destruct (get_semantics param_1 w_kyoto) as (_ & _ & H200 & _).
  destruct (get_semantics param_abc w_kyoto) as (_ & _ & _ & H500).
  split; [|split].
  - apply (H404 7%positive); reflexivity.
  - apply (H200 1%positive kyoto); reflexivity.
  - apply H500. reflexivity.
Defined.

(** X13: after a delete, whether it found a record or not, a get with the
    same route parameter is answered with 404 when the parameter names an
    identifier, and with 500 when it names none. *)
Theorem delete_then_get param w :
  (∀ id, castObjectId param = Some id →
     route_get param (route_delete param w).2
     = (mkResponse 404 (JMessage "Post not found"),
        (route_delete param w).2)) ∧
  (castObjectId param = None →
     ∃ message,
       route_get param (route_delete param w).2
       = (mkResponse 500 (JMessage message), w)).
Proof.
  unfold route_get, route_delete. destruct (castObjectId param) as [id|].
  - split; [|done]. intros ? _. unfold getPost, deletePost. unfold_M.
    destruct (posts w !! id) as [p|] eqn:Hp; simpl;
      by rewrite lookup_delete_eq.
  - split; [done|]. intros _. by eexists.
Qed.

Lemma delete_then_get_witness :
  route_get param_1 (route_delete param_1 w_trip).2
    = (mkResponse 404 (JMessage "Post not found"),
       (route_delete param_1 w_trip).2) ∧
  ∃ message,
    route_get param_abc (route_delete param_abc w_trip).2
    = (mkResponse 500 (JMessage message), w_trip).
Proof.
  split.
  - apply (proj1 (delete_then_get param_1 w_trip) 1%positive). reflexivity.
  - apply (proj2 (delete_then_get param_abc w_trip)). reflexivity.
Defined.

(** X23: a request whose route parameter names no identifier changes
    nothing, whatever else it carries: get and delete answer 500, update
    answers 400 with the message of the failed cast after
    [Failed to update post: ], and a file that came with the update is not
    sent to the media host. *)
Theorem malformed_param_changes_nothing omit env param req w :
  castObjectId param = None →
  ∃ message,
    route_get param w = (mkResponse 500 (JMessage message), w) ∧
    route_delete param w = (mkResponse 500 (JMessage message), w) ∧
    route_put omit env param req w
    = (mkResponse 400 (JMessage ("Failed to update post: " +:+ message)), w).
Proof.
  intros Hc. unfold route_get, route_delete, route_put. rewrite Hc.
  by eexists.
Qed.

Lemma malformed_param_changes_nothing_witness :
  ∃ message,
    route_get param_abc w_trip = (mkResponse 500 (JMessage message), w_trip) ∧
    route_delete param_abc w_trip
      = (mkResponse 500 (JMessage message), w_trip) ∧
    route_put true quiet param_abc kyoto_with_photo w_trip
    = (mkResponse 400 (JMessage ("Failed to update post: " +:+ message)),
       w_trip).
Proof.
  apply (malformed_param_changes_nothing true quiet param_abc kyoto_with_photo
           w_trip).
  reflexivity.
Defined.

(** ** What a call can change *)

Lemma deletePost_eq id w :
  deletePost id w =
    (match posts w !! id with
     | Some _ => mkResponse 200 (JMessage "Post deleted successfully")
     | None => mkResponse 404 (JMessage "Post not found")
     end,
     mkWorld (delete id (posts w)) (nextId w) (now w) (uploads w)).
Proof. unfold deletePost. unfold_M. by destruct (posts w !! id). Qed.

(** The outcomes of the media host, as far as a request with file sees them. *)
Lemma upload_cases env req :
  file req = None ∨
  (∃ f url, file req = Some f ∧ upload_outcome env = Uploaded url) ∨
  (∃ f msg, file req = Some f ∧ upload_outcome env = UploadError msg).
Proof.
  destruct (file req); [|auto]. destruct (upload_outcome env); eauto 7.
Qed.

(** X14: the collection changes only through a create answered with
    201, an update answered with 200 or a delete answered with 200: no call
    that reports a failure, and no GET, leaves a partial write. *)
Theorem collection_changes_only_on_success omit c w r w' :
  handle omit c w = (r, w') →
  posts w' ≠ posts w →
  (∃ env req, c = POST_posts env req ∧ status r = 201%N) ∨
  (∃ env id req, c = PUT_post env id req ∧ status r = 200%N) ∨
  (∃ id, c = DELETE_post id ∧ status r = 200%N).
Proof.
  destruct c as [beyond search|id|env req|env id req|id|]; simpl.
  - rewrite getPosts_eq.
    by destruct (truthy search); [destruct (compile _ _)|]; intros [= <- <-].
  - unfold getPost. unfold_M.
    by destruct (posts w !! id); intros [= <- <-].
  -
    destruct (truthy (b_title (body req))) eqn:Ht;
      [|rewrite createPost_refused by auto; by intros [= <- <-]].
    destruct (truthy (b_content (body req))) eqn:Hc;
      [|rewrite createPost_refused by auto; by intros [= <- <-]].
    destruct (upload_cases env req) as [Hf|[(f & url & Hf & Hu)|(f & msg & Hf & Hu)]].
    + rewrite createPost_accepted by auto. intros [= <- <-] _. left. eauto.
    + rewrite createPost_accepted by eauto. intros [= <- <-] _. left. eauto.
    + rewrite (createPost_host_failed env req w f msg) by done.
      by intros [= <- <-].
  -
    destruct (posts w !! id) as [p|] eqn:Hp;
      [|rewrite updatePost_missing by done; by intros [= <- <-]].
    destruct (upload_cases env req) as [Hf|[(f & url & Hf & Hu)|(f & msg & Hf & Hu)]].
    + rewrite (updatePost_found omit env id req w p) by auto.
      intros [= <- <-] _. right. left. eauto.
    + rewrite (updatePost_found omit env id req w p) by eauto.
      intros [= <- <-] _. right. left. eauto.
    + rewrite (updatePost_host_failed omit env id req w p f msg) by done.
      by intros [= <- <-].
  - rewrite deletePost_eq. intros [= <- <-]. simpl.
    destruct (posts w !! id) as [p|] eqn:Hp.
    + intros _. right. right. eauto.
    + by rewrite delete_id.
  - unfold getTags. unfold_M. by intros [= <- <-].
Qed.

Lemma collection_changes_only_on_success_witness :
  (∃ env req, DELETE_post 1%positive = POST_posts env req ∧
              status (deletePost 1%positive w_kyoto).1 = 201%N) ∨
  (∃ env id req, DELETE_post 1%positive = PUT_post env id req ∧
                 status (deletePost 1%positive w_kyoto).1 = 200%N) ∨
  (∃ id, DELETE_post 1%positive = DELETE_post id ∧
         status (deletePost 1%positive w_kyoto).1 = 200%N).
Proof.
  apply (collection_changes_only_on_success true (DELETE_post 1%positive)
           w_kyoto (deletePost 1%positive w_kyoto).1
           (deletePost 1%positive w_kyoto).2).
  - reflexivity.
  - intros H. apply (f_equal (λ m, m !! 1%positive)) in H. discriminate H.
Defined.

(** X15: the media host is contacted only by a create or an update that
    carries a file, and then it is sent that file, once. *)
Theorem media_host_contact omit c w r w' :
  handle omit c w = (r, w') →
  uploads w' = uploads w ∨
  ∃ env req f,
    (c = POST_posts env req ∨ ∃ id, c = PUT_post env id req) ∧
    file req = Some f ∧
    uploads w' = uploads w ++ [f].
Proof.
  destruct c as [beyond search|id|env req|env id req|id|]; simpl.
  - rewrite getPosts_eq.
    destruct (truthy search); [destruct (compile _ _)|]; intros [= <- <-];
      by left.
  - unfold getPost. unfold_M.
    destruct (posts w !! id); intros [= <- <-]; by left.
  -
    destruct (truthy (b_title (body req))) eqn:Ht;
      [|rewrite createPost_refused by auto; intros [= <- <-]; by left].
    destruct (truthy (b_content (body req))) eqn:Hc;
      [|rewrite createPost_refused by auto; intros [= <- <-]; by left].
    destruct (upload_cases env req) as [Hf|[(f & url & Hf & Hu)|(f & msg & Hf & Hu)]].
    + rewrite createPost_accepted by auto. intros [= <- <-]. left. simpl.
      by rewrite Hf, app_nil_r.
    + rewrite createPost_accepted by eauto. intros [= <- <-]. right. simpl.
      exists env, req, f. rewrite Hf. auto.
    + rewrite (createPost_host_failed env req w f msg) by done.
      intros [= <- <-]. right. exists env, req, f. auto.
  -
    destruct (posts w !! id) as [p|] eqn:Hp;
      [|rewrite updatePost_missing by done; intros [= <- <-]; by left].
    destruct (upload_cases env req) as [Hf|[(f & url & Hf & Hu)|(f & msg & Hf & Hu)]].
    + rewrite (updatePost_found omit env id req w p) by auto.
      intros [= <- <-]. left. simpl. by rewrite Hf, app_nil_r.
    + rewrite (updatePost_found omit env id req w p) by eauto.
      intros [= <- <-]. right. simpl. exists env, req, f. rewrite Hf. eauto.
    + rewrite (updatePost_host_failed omit env id req w p f msg) by done.
      intros [= <- <-]. right. exists env, req, f. eauto.
  - rewrite deletePost_eq. intros [= <- <-]. by left.
  - unfold getTags. unfold_M. intros [= <- <-]. by left.
Qed.

Lemma media_host_contact_witness :
  uploads (createPost quiet kyoto_with_photo w_kyoto).2 = uploads w_kyoto ∨
  ∃ env req f,
    (POST_posts quiet kyoto_with_photo = POST_posts env req ∨
     ∃ id, POST_posts quiet kyoto_with_photo = PUT_post env id req) ∧
    file req = Some f ∧
    uploads (createPost quiet kyoto_with_photo w_kyoto).2
      = uploads w_kyoto ++ [f].
Proof.
  apply (media_host_contact true (POST_posts quiet kyoto_with_photo) w_kyoto
           (createPost quiet kyoto_with_photo w_kyoto).1).
  reflexivity.
Defined.

(** ** More on listing and search *)

(** X17: a listing request changes nothing, whatever the search term and
    whatever the pattern engine makes of it; its answer is a listing that
    holds only records of the collection, each at most once, or 500 when the
    pattern is rejected. *)
Theorem listing_sound beyond search w r w' :
  getPosts beyond search w = (r, w') →
  w' = w ∧
  ((∃ l, r = mkResponse 200 (JPosts l) ∧
         NoDup l ∧
         ∀ d, d ∈ l → posts w !! d.1 = Some d.2) ∨
   (∃ message, r = mkResponse 500 (JMessage message))).
Proof.
  assert (∀ q, NoDup (find_sorted q w) ∧
               ∀ d, d ∈ find_sorted q w → posts w !! d.1 = Some d.2) as Hq.
  { intros q. split.
    - unfold find_sorted. rewrite merge_sort_Permutation.
      apply NoDup_filter, NoDup_map_to_list.
    - intros d Hd. by apply elem_of_find_sorted in Hd as [Hd _]. }
  rewrite getPosts_eq.
  destruct (truthy search); [destruct (compile _ _) as [test|message]|];
    intros [= <- <-]; (split; [done|]); eauto.
Qed.

Lemma listing_sound_witness :
  w_trip = w_trip ∧
  ((∃ l, mkResponse 200 (JPosts [(2%positive, osaka); (1%positive, kyoto)])
           = mkResponse 200 (JPosts l) ∧
         NoDup l ∧
         ∀ d, d ∈ l → posts w_trip !! d.1 = Some d.2) ∨
   (∃ message,
      mkResponse 200 (JPosts [(2%positive, osaka); (1%positive, kyoto)])
      = mkResponse 500 (JMessage message))).
Proof.
  apply (listing_sound rejecting (Some "  TEMPLE ") w_trip
           (mkResponse 200 (JPosts [(2%positive, osaka); (1%positive, kyoto)]))
           w_trip).
  reflexivity.
Defined.

(** *** Trimming *)

Lemma trimStart_snoc k c :
  is_white c = false → trimStart (k ++ [c]) = trimStart k ++ [c].
Proof.
  intros Hc. induction k as [|x k IH]; simpl.
  - by rewrite Hc.
  - by destruct (is_white x).
Qed.

Lemma trimStart_head l :
  trimStart l = [] ∨ ∃ c l', trimStart l = c :: l' ∧ is_white c = false.
Proof.
  induction l as [|x l IH]; simpl; [by left|].
  destruct (is_white x) eqn:Hx; [done|]. right. eauto.
Qed.

Lemma trimStart_fixed c l : is_white c = false → trimStart (c :: l) = c :: l.
Proof. intros Hc. simpl. by rewrite Hc. Qed.

Lemma trimStart_idem l : trimStart (trimStart l) = trimStart l.
Proof.
  destruct (trimStart_head l) as [->|(c & l' & -> & Hc)]; [done|].
  by apply trimStart_fixed.
Qed.

Lemma trimEnd_cons c l : is_white c = false → trimEnd (c :: l) = c :: trimEnd l.
Proof.
  intros Hc. unfold trimEnd.
  by rewrite reverse_cons, trimStart_snoc, reverse_snoc.
Qed.

Lemma trimEnd_idem l : trimEnd (trimEnd l) = trimEnd l.
Proof. unfold trimEnd. by rewrite reverse_involutive, trimStart_idem. Qed.

Lemma trim_idem s : trim (trim s) = trim s.
Proof.
  unfold trim. rewrite list_ascii_of_string_of_list_ascii. f_equal.
  destruct (trimStart_head (list_ascii_of_string s)) as [->|(c & l & -> & Hc)].
  - done.
  - rewrite (trimEnd_cons c l Hc), (trimStart_fixed c _ Hc).
    by rewrite <- (trimEnd_cons c l Hc), trimEnd_idem.
Qed.

Lemma trim_white s :
  Forall (λ c, is_white c = true) (list_ascii_of_string s) → trim s = ""%string.
Proof.
  unfold trim. intros H.
  assert (trimStart (list_ascii_of_string s) = []) as ->; [|done].
  induction H as [|c l Hc _ IH]; simpl; [done|]. by rewrite Hc.
Qed.

(** X18: white space around a search term does not matter: the term
    and its trimmed form give the same answer, provided something is left
    after trimming. *)
Theorem search_ignores_surrounding_space beyond s w :
  trim s ≠ ""%string →
  getPosts beyond (Some s) w = getPosts beyond (Some (trim s)) w.
Proof.
  intros Ht. rewrite !getPosts_eq.
  assert (truthy (Some s) = true) as ->.
  { destruct s; [by destruct Ht|done]. }
  assert (truthy (Some (trim s)) = true) as ->.
  { by destruct (trim s). }
  simpl default. by rewrite trim_idem.
Qed.

Lemma search_ignores_surrounding_space_witness :
  getPosts rejecting (Some "  TEMPLE ") w_trip
  = getPosts rejecting (Some (trim "  TEMPLE ")) w_trip.
Proof.
  apply (search_ignores_surrounding_space rejecting "  TEMPLE " w_trip).
  discriminate.
Defined.

(** X19: two plain search terms that differ only in letter case (and
    surrounding white space) give the same listing. *)
Theorem search_ignores_case beyond s1 s2 w :
  s1 ≠ ""%string → s2 ≠ ""%string →
  plain (trim s1) → plain (trim s2) →
  fold_case (trim s1) = fold_case (trim s2) →
  getPosts beyond (Some s1) w = getPosts beyond (Some s2) w.
Proof.
  intros H1 H2 Hp1 Hp2 Hfold. rewrite !getPosts_eq.
  assert (truthy (Some s1) = true) as -> by by destruct s1.
  assert (truthy (Some s2) = true) as -> by by destruct s2.
  simpl default. rewrite (compile_plain _ _ Hp1), (compile_plain _ _ Hp2).
  do 3 f_equal. unfold find_sorted.
  apply (f_equal (merge_sort newest_first)).
  apply list_filter_iff. intros d. rewrite !query_matches_lits.
  unfold mentions, occurs_in_field, occurs_in. by rewrite Hfold.
Qed.

Lemma search_ignores_case_witness :
  getPosts rejecting (Some "kyoto") w_trip
  = getPosts rejecting (Some " KYOTO") w_trip.
Proof.
  apply (search_ignores_case rejecting "kyoto" " KYOTO" w_trip).
  - discriminate.
  - discriminate.
  - unfold plain. vm_compute. repeat constructor.
  - unfold plain. vm_compute. repeat constructor.
  - reflexivity.
Defined.

Lemma search_from_nil s : search_from [] s = true.
Proof. by destruct s. Qed.

(** X20: a search term made of white space only is not taken as no
    search: it is trimmed to the empty pattern, and the listing holds exactly
    the records that have a title, a content, a location or at least one
    tag. *)
Theorem search_white_space_only beyond s w :
  s ≠ ""%string →
  Forall (λ c, is_white c = true) (list_ascii_of_string s) →
  ∃ l, getPosts beyond (Some s) w = (mkResponse 200 (JPosts l), w) ∧
       ∀ d, d ∈ l ↔
            posts w !! d.1 = Some d.2 ∧
            (is_Some (title d.2) ∨ is_Some (content d.2) ∨
             is_Some (location d.2) ∨
             ∃ ts t, tags d.2 = Some ts ∧ t ∈ ts).
Proof.
  intros Hs Hw. rewrite getPosts_eq.
  assert (truthy (Some s) = true) as -> by by destruct s.
  simpl default. rewrite (trim_white s Hw).
  change (compile beyond "") with (Compiles (RegExp_test [])).
  eexists. split; [done|]. intros d. rewrite elem_of_find_sorted.
  assert (∀ v, field_matches (RegExp_test []) v = true ↔ is_Some v) as Hf.
  { intros [v|]; simpl.
    - unfold RegExp_test. rewrite search_from_nil. split; eauto.
    - split; [done|]. by intros [? ?]. }
  unfold query_matches. rewrite !orb_true_iff, !Hf.
  assert (array_matches (RegExp_test []) (tags d.2) = true ↔
          ∃ ts t, tags d.2 = Some ts ∧ t ∈ ts) as ->; [|tauto].
  destruct (tags d.2) as [ts|]; simpl.
  - rewrite existsb_exists. split.
    + intros (t & Hin & _). exists ts, t. by rewrite list_elem_of_In.
    + intros (ts' & t & [= <-] & Hin). exists t.
      rewrite <- list_elem_of_In. split; [done|].
      unfold RegExp_test. apply search_from_nil.
  - split; [done|]. by intros (? & ? & ? & _).
Qed.

Lemma search_white_space_only_witness :
  ∃ l, getPosts rejecting (Some "  ") w_kyoto
         = (mkResponse 200 (JPosts l), w_kyoto) ∧
       ∀ d, d ∈ l ↔
            posts w_kyoto !! d.1 = Some d.2 ∧
            (is_Some (title d.2) ∨ is_Some (content d.2) ∨
             is_Some (location d.2) ∨
             ∃ ts t, tags d.2 = Some ts ∧ t ∈ ts).
Proof.
  apply (search_white_space_only rejecting "  " w_kyoto).
  - discriminate.
  - vm_compute. repeat constructor.
Defined.

(** ** After a create, and the schema on its own *)

(** X21: a post that was just created is in the unfiltered listing. *)
Theorem create_then_listed beyond env req w d :
  json (createPost env req w).1 = JPost d →
  ∃ l, getPosts beyond None (createPost env req w).2
         = (mkResponse 200 (JPosts l), (createPost env req w).2) ∧
       d ∈ l.
Proof.
  intros Hd. destruct (createPost_JPost_inv env req w d Hd) as (Ht & Hc & Hup).
  revert Hd. rewrite (createPost_accepted env req w Ht Hc Hup). simpl.
  intros [= <-]. eexists. split; [reflexivity|].
  apply elem_of_find_sorted. simpl. by rewrite lookup_insert_eq.
Qed.

Lemma create_then_listed_witness :
  ∃ l, getPosts rejecting None (createPost slow_save kyoto_request (start 100)).2
         = (mkResponse 200 (JPosts l),
            (createPost slow_save kyoto_request (start 100)).2) ∧
       (1%positive, kyoto) ∈ l.
Proof.
  apply (create_then_listed rejecting slow_save kyoto_request (start 100)
           (1%positive, kyoto)).
  reflexivity.
Defined.

(** X22: the schema on its own: saving a document whose title or content
    is blank throws and writes nothing to the collection. *)
Theorem save_requires_title_and_content env d w :
  blank (title d.2) ∨ blank (content d.2) →
  ∃ msg w', save env d w = (Throw msg, w') ∧ posts w' = posts w.
Proof.
  rewrite <- !truthy_blank. unfold save. unfold_M.
  destruct (truthy (title d.2)) eqn:Ht; [|eauto].
  intros [H|H]; [done|]. rewrite H. eauto.
Qed.

Lemma save_requires_title_and_content_witness :
  ∃ msg w', save quiet (7%positive, untitled) w_kyoto = (Throw msg, w') ∧
            posts w' = posts w_kyoto.
Proof.
  apply (save_requires_title_and_content quiet (7%positive, untitled) w_kyoto).
  left. left. reflexivity.
Defined.
